(** * Geo-fencing service: region building and membership testing

    A shallow embedding of the notebook [7.geo-fencing-service.ipynb]:
    [clusters], [regions], [in_hull], [location_alert] and the endpoint
    [alert_api], together with the control flow of the library calls they make (pandas [groupby], the
    estimator's [fit], qhull's hull and triangulation constructors). *)

From Stdlib Require Import ZArith Floats Lia.
From stdpp Require Import base tactics option relations list sorting strings.

Set Warnings "-inexact-float".
Set Default Proof Using "Type".

Local Open Scope Z_scope.

(** ** Python outcomes *)

(** The exceptions that occur in the embedded code.  [OutOfFuel] is not a
    Python exception: it marks the exhaustion of the iteration budget of the
    model of the estimator's inner loop, and is shown never to occur
    ([dbscan_inner_total]). *)
Inductive exn : Set :=
  | ValueError
  | UnboundLocalError
  | IndexError
  | QhullError
  | DriverError
  | OutOfFuel.

Inductive result (A : Type) : Type :=
  | Return (a : A)
  | Raise (e : exn).
Arguments Return {A} a.
Arguments Raise {A} e.

Definition bind {A B : Type} (m : result A) (k : A → result B) : result B :=
  match m with
  | Return a => k a
  | Raise e => Raise e
  end.

Notation "'let!' x ':=' m 'in' k" := (bind m (λ x, k))
  (at level 10, x pattern, m at level 100, k at level 200).

(** [try: m except: d] is a [try] block with a bare [except:] clause. *)
Definition try_except {A : Type} (m : result A) (d : A) : A :=
  match m with
  | Return a => a
  | Raise _ => d
  end.

(** ** Data *)

(** A row of the matrix of coordinates: [(lon, lat)], both float64. *)
Abbreviation point := (float * float)%type (only parsing).

(** A row of the data frame returned by [clusters]: the columns [lon], [lat]
    and the added column [cl]. *)
Record row : Type := Row { lon : float; lat : float; cl : Z }.

Abbreviation frame := (list row) (only parsing).

Definition coords (r : row) : point := (lon r, lat r).

Definition NOISE : Z := -1.

Definition finite_point (p : point) : bool :=
  PrimFloat.is_finite p.1 && PrimFloat.is_finite p.2.

(** ** Collaborators

    What the notebook calls but does not define. *)
Class Collaborators : Type := {
  (** [session.execute(cql_prepared.bind([uid]))]: the [lon, lat] rows of the
      user, or a driver failure. *)
  execute : Z → result (list point);
  (** The radius query of the estimator: [within eps x y] when [y] is counted
      as a neighbour of [x] at radius [eps]. *)
  within : float → point → point → bool;
  (** [ConvexHull(points, qhull_options='QJ Pp').vertices]: indices into the
      input, or an error of qhull. *)
  ConvexHull : list point → result (list nat);
  (** The triangulations built by [Delaunay(vertices, qhull_options='QJ Pp')]
      and the lookup [find_simplex], which gives the index of a simplex that
      holds the point, or [-1]. *)
  triangulation : Type;
  Delaunay : list point → result triangulation;
  find_simplex : triangulation → point → result Z;
}.

Section Service.

Context {lib : Collaborators}.

(** ** The estimator: [DBSCAN(eps, min_samples).fit(X).labels_]

    The estimator is a library of its own (scikit-learn).  Its [fit] is
    embedded as the library computes it: the check of the input, the radius
    neighbourhoods of the samples, the core samples, and the depth-first
    labelling of [dbscan_inner].  Only the radius query is left to the
    collaborators. *)

(** [check_array]: a matrix with no sample, or with a coordinate that is
    not finite, is refused with [ValueError]. *)
Definition check_array (X : list point) : result unit :=
  if bool_decide (X = []) then Raise ValueError
  else if forallb finite_point X then Return tt
  else Raise ValueError.

(** [neighborhoods[i]]: the indices of the samples within [eps] of sample
    [i], in increasing order. *)
Definition neighbour_index (eps : float) (X : list point) (x : point) (j : nat)
    : bool :=
  from_option (within eps x) false (X !! j).

Definition neighborhood (eps : float) (X : list point) (x : point) : list nat :=
  filter (λ j, neighbour_index eps X x j) (seq 0 (length X)).

Definition neighborhoods (eps : float) (X : list point) : list (list nat) :=
  neighborhood eps X <$> X.

Definition core_samples (min_samples : nat) (nbs : list (list nat)) : list bool :=
  (λ nb, bool_decide (min_samples ≤ length nb)%nat) <$> nbs.

Definition label_of (labels : list Z) (i : nat) : Z := default NOISE (labels !! i).
Definition is_core (core : list bool) (i : nat) : bool := default false (core !! i).
Definition neighb (nbs : list (list nat)) (i : nat) : list nat := default [] (nbs !! i).

(** The [for] loop over [neighb] that pushes the unlabelled neighbours on
    the stack; the head of the list is the back of the stack. *)
Definition push_unlabelled (labels : list Z) (nb : list nat) (stack : list nat)
    : list nat :=
  foldl (λ st v, if bool_decide (label_of labels v = NOISE) then v :: st else st)
        stack nb.

(** One turn of the [while True] loop of [dbscan_inner]: the labels and the
    stack after sample [i] was visited. *)
Definition visit (core : list bool) (nbs : list (list nat)) (label_num : Z)
    (labels : list Z) (stack : list nat) (i : nat) : list Z * list nat :=
  if bool_decide (label_of labels i = NOISE) then
    let labels' := <[i := label_num]> labels in
    (labels',
     if is_core core i then push_unlabelled labels' (neighb nbs i) stack
     else stack)
  else (labels, stack).

(** The depth-first search from [i]; [None] when the budget is spent. *)
Fixpoint expand (fuel : nat) (core : list bool) (nbs : list (list nat))
    (label_num : Z) (labels : list Z) (stack : list nat) (i : nat)
    : option (list Z) :=
  match fuel with
  | O => None
  | S fuel =>
      let '(labels', stack') := visit core nbs label_num labels stack i in
      match stack' with
      | [] => Some labels'
      | v :: rest => expand fuel core nbs label_num labels' rest v
      end
  end.

(** The outer loop [for i in range(labels.shape[0])]. *)
Fixpoint sweep (fuel : nat) (core : list bool) (nbs : list (list nat))
    (label_num : Z) (labels : list Z) (todo : list nat) : option (list Z) :=
  match todo with
  | [] => Some labels
  | i :: todo =>
      if bool_decide (label_of labels i ≠ NOISE) || negb (is_core core i)
      then sweep fuel core nbs label_num labels todo
      else
        labels' ← expand fuel core nbs label_num labels [] i;
        sweep fuel core nbs (label_num + 1) labels' todo
  end.

Definition dbscan_fuel (n : nat) : nat := S (n * S n).

Definition dbscan_inner (core : list bool) (nbs : list (list nat)) (n : nat)
    : option (list Z) :=
  sweep (dbscan_fuel n) core nbs 0 (replicate n NOISE) (seq 0 n).

(** [fit]: the input is checked, a radius that is not positive is refused
    with [ValueError], and the labels are computed. *)
Definition DBSCAN_fit (eps : float) (min_samples : nat) (X : list point)
    : result (list Z) :=
  let! _ := check_array X in
  if (0 <? eps)%float then
    let nbs := neighborhoods eps X in
    match dbscan_inner (core_samples min_samples nbs) nbs (length X) with
    | Some labels => Return labels
    | None => Raise OutOfFuel
    end
  else Raise ValueError.

(** ** [clusters] *)

(** The row of the frame made of a row of the store and its label. *)
Definition add_cl (p : point) (c : Z) : row := Row p.1 p.2 c.

(** [data['cl'] = db.labels_]: the column must have one value per row. *)
Definition set_cl (X : list point) (labels : list Z) : result frame :=
  if bool_decide (length labels = length X)
  then Return (zip_with add_cl X labels)
  else Raise ValueError.

Definition clusters_radius (uid : Z) (radius : float) : result frame :=
  let eps := (radius / 111034.61)%float in
  let! rows := execute uid in
  let! labels := DBSCAN_fit eps 3 rows in
  set_cl rows labels.

(** [clusters(uid)], with the default [radius=260]. *)
Definition clusters (uid : Z) : result frame := clusters_radius uid 260%float.

(** The radius in degrees that [clusters(uid)] passes to the estimator. *)
Definition default_eps : float := (260 / 111034.61)%float.

(** ** [regions] *)

(** [data.groupby('cl')]: one group per label of the column, the labels in
    increasing order, each group with its rows in the order of the frame. *)
Definition group_keys (data : frame) : list Z :=
  merge_sort Z.le (remove_dups (cl <$> data)).

Definition group_of (data : frame) (k : Z) : frame :=
  filter (λ r, cl r = k) data.

Definition groupby (data : frame) : list (Z * frame) :=
  (λ k, (k, group_of data k)) <$> group_keys data.

(** [group[['lon','lat']].as_matrix()] *)
Definition as_matrix (group : frame) : list point := coords <$> group.

(** What [in_hull] may receive as [convexhull]. *)
Inductive hullarg : Type :=
  | NdArray (vertices : list point)
  | DelaunayObj (t : triangulation).

(** The body of the [try] block of [regions]: [points] is the local
    variable, [None] while it is unbound. *)
Definition hull_attempt (points : option (list point)) : result hullarg :=
  match points with
  | None => Raise UnboundLocalError
  | Some pts =>
      let! vertices := ConvexHull pts in
      match mapM (λ i, pts !! i) vertices with
      | Some hull_vertices => Return (NdArray hull_vertices)
      | None => Raise IndexError
      end
  end.

(** One turn of the loop of [regions] on the state [(points, hulls)]. *)
Definition regions_step (st : option (list point) * list hullarg)
    (g : Z * frame) : option (list point) * list hullarg :=
  let points := if bool_decide (0 ≤ g.1) then Some (as_matrix g.2) else st.1 in
  (points,
   try_except (let! h := hull_attempt points in Return (st.2 ++ [h])) st.2).

Definition regions (data : frame) : list hullarg :=
  (foldl regions_step (None, []) (groupby data)).2.

(** ** [in_hull] *)

Definition in_hull (p : point) (convexhull : hullarg) : result bool :=
  match convexhull with
  | NdArray vertices =>
      Return (try_except
                (let! hull := Delaunay vertices in
                 let! s := find_simplex hull p in
                 Return (bool_decide (0 ≤ s)))
                false)
  | DelaunayObj _ => Raise UnboundLocalError
  end.

(** ** [location_alert] *)

(** The loop [for k in list(range(len(hulls)))], with [or] evaluating its
    right operand only when [result] (here [res]) is false. *)
Fixpoint alert_loop (p : point) (hulls : list hullarg) (ks : list nat)
    (res : bool) : result bool :=
  match ks with
  | [] => Return res
  | k :: ks =>
      let! res' :=
        (if res then Return true
         else match hulls !! k with
              | Some h => in_hull p h
              | None => Raise IndexError
              end) in
      alert_loop p hulls ks res'
  end.

Definition location_alert (uid : Z) (lon lat : float) : result bool :=
  let! data := clusters uid in
  let hulls := regions data in
  let! res := alert_loop (lon, lat) hulls (seq 0 (length hulls)) false in
  Return (negb res).

(** ** Notions of the statements and of their proofs *)

(** What a cluster contributes to [regions]: its hull, when the [try]
    block goes through. *)
Definition region_of (data : frame) (k : Z) : option hullarg :=
  match hull_attempt (Some (as_matrix (group_of data k))) with
  | Return h => Some h
  | Raise _ => None
  end.

(** The answer of the membership test for a region, an error counting as
    "not inside". *)
Definition inside (p : point) (h : hullarg) : bool := try_except (in_hull p h) false.

Definition is_ndarray (h : hullarg) : Prop := ∃ vertices, h = NdArray vertices.

(** The number of samples that still carry the noise label. *)
Definition unlabelled (labels : list Z) : nat :=
  length (filter (λ c, c = NOISE) labels).

(** The labels cover the [n] samples, and what is still to be visited are
    samples. *)
Definition pending_wf (n : nat) (labels : list Z) (pending : list nat) : Prop :=
  length labels = n ∧ Forall (λ v, (v < n)%nat) pending.

(** What bounds the number of turns of the [while] loop that remain. *)
Definition turns_left (n : nat) (labels : list Z) (pending : list nat) : nat :=
  (unlabelled labels * S n + length pending)%nat.

Definition label_ok (c : Z) : Prop := c = NOISE ∨ 0 ≤ c.

(** The state of the search for cluster [k] from the sample [r], started
    with the labels [labels0], on the graph given by [core] and [nbs];
    [conn] is a relation that holds between the samples of a cluster. *)
Record inner_inv (core : list bool) (nbs : list (list nat))
    (conn : nat → nat → Prop) (k : Z) (r : nat) (labels0 labels : list Z)
    (pending : list nat) : Prop := {
  ii_range : Forall (λ c, c = NOISE ∨ 0 ≤ c ≤ k) labels;
  ii_frame : ∀ v,
    label_of labels v = label_of labels0 v
    ∨ (label_of labels0 v = NOISE ∧ label_of labels v = k);
  ii_closed : ∀ c v,
    is_core core c = true → v ∈ neighb nbs c → label_of labels c ≠ NOISE →
    label_of labels v = label_of labels c
    ∨ (label_of labels v = NOISE ∧ v ∈ pending ∧ label_of labels c = k);
  ii_support : ∀ v,
    label_of labels v ≠ NOISE →
    ∃ c, is_core core c = true ∧ v ∈ neighb nbs c
         ∧ label_of labels c = label_of labels v;
  ii_conn_root : ∀ v, label_of labels v = k → conn r v;
  ii_pending_conn : ∀ v, v ∈ pending → conn r v;
  ii_pending_support : ∀ v,
    v ∈ pending →
    is_core core v = true
    ∨ ∃ c, is_core core c = true ∧ v ∈ neighb nbs c ∧ label_of labels c = k;
  ii_root : label_of labels r ≠ NOISE ∨ r ∈ pending;
}.

(** The state of the outer loop: [label_num] clusters are complete, and the
    samples of [todo] are still to be looked at. *)
Record outer_inv (n : nat) (core : list bool) (nbs : list (list nat))
    (conn : nat → nat → Prop) (label_num : Z) (labels : list Z)
    (todo : list nat) : Prop := {
  oi_range : Forall (λ c, c = NOISE ∨ 0 ≤ c < label_num) labels;
  oi_closed : ∀ c v,
    is_core core c = true → v ∈ neighb nbs c → label_of labels c ≠ NOISE →
    label_of labels v = label_of labels c;
  oi_support : ∀ v,
    label_of labels v ≠ NOISE →
    ∃ c, is_core core c = true ∧ v ∈ neighb nbs c
         ∧ label_of labels c = label_of labels v;
  oi_conn : ∀ u v,
    label_of labels u = label_of labels v → label_of labels u ≠ NOISE →
    conn u v;
  oi_done : ∀ c,
    (c < n)%nat → is_core core c = true → c ∉ todo → label_of labels c ≠ NOISE;
}.

(** The density notions on the points themselves, for a matrix [X]: a point
    of [X] is core when at least three rows of [X] are within [eps] of it; a
    core point reaches its neighbours. *)
Definition neighbour_count (eps : float) (X : list point) (x : point) : nat :=
  length (filter (λ y, within eps x y = true) X).

Definition core_point (eps : float) (X : list point) (x : point) : Prop :=
  (3 ≤ neighbour_count eps X x)%nat.

Definition reaches (eps : float) (X : list point) (x y : point) : Prop :=
  x ∈ X ∧ y ∈ X ∧ core_point eps X x ∧ within eps x y = true.

(** The points that belong to some cluster, and the points of one cluster. *)
Definition clustered (eps : float) (X : list point) (y : point) : Prop :=
  ∃ x, reaches eps X x y.

Definition same_cluster (eps : float) (X : list point) (x y : point) : Prop :=
  clustered eps X x ∧ clustered eps X y ∧ rtsc (reaches eps X) x y.

(** Two samples are connected when their points are. *)
Definition conn_index (eps : float) (X : list point) (i j : nat) : Prop :=
  ∃ x y, X !! i = Some x ∧ X !! j = Some y ∧ rtsc (reaches eps X) x y.

(** The answer of the membership test for the hull of the points [pts]:
    [false] when the hull cannot be built. *)
Definition hull_answer (p : point) (pts : list point) : bool :=
  match hull_attempt (Some pts) with
  | Return h => inside p h
  | Raise _ => false
  end.

(** The points of a group, read off the rows flagged with its label. *)
Definition flagged (k : Z) (X : list point) (labels : list Z)
    : list (point * bool) :=
  zip_with (λ x c, (x, bool_decide (c = k))) X labels.

(** Rows carry the same cluster number exactly when their points are in the
    same cluster. *)
Definition labels_by_cluster (eps : float) (X : list point) (labels : list Z)
    : Prop :=
  ∀ i j x y, X !! i = Some x → X !! j = Some y →
    (label_of labels i = label_of labels j ∧ label_of labels i ≠ NOISE)
    ↔ same_cluster eps X x y.

End Service.

(** ** [alert_api]

    The endpoint [/location/alert/<int:uid>/<lon>,<lat>]: the router hands
    [uid] over as an integer and [lon] and [lat] as text. *)
Section Endpoint.

Context {lib : Collaborators}.

(** Python's [float] on text: the number read, or [ValueError]. *)
Variable float_of_str : string → result float.

(** [json.dumps] on a Python [bool]. *)
Definition json_dumps (b : bool) : string := if b then "true" else "false".

Definition alert_api (uid : Z) (lon lat : string) : result string :=
  let! x := float_of_str lon in
  let! y := float_of_str lat in
  let! res := location_alert uid x y in
  Return (json_dumps res).

End Endpoint.

(** ** The plane, in floats *)

(** Twice the signed area of the triangle [a b c]: positive when [c] is to
    the left of the ray from [a] through [b]. *)
Definition cross (a b c : point) : float :=
  ((b.1 - a.1) * (c.2 - a.2) - (b.2 - a.2) * (c.1 - a.1))%float.

Definition dist2 (a b : point) : float :=
  ((b.1 - a.1) * (b.1 - a.1) + (b.2 - a.2) * (b.2 - a.2))%float.

(** [p] is in the closed triangle [a b c], a triangle being three points
    that are not on one line, in either orientation. *)
Definition in_triangle (a b c p : point) : bool :=
  let d1 := cross a b p in
  let d2 := cross b c p in
  let d3 := cross c a p in
  ((0 <? cross a b c) && (0 <=? d1) && (0 <=? d2) && (0 <=? d3))%float
  || ((cross a b c <? 0) && (d1 <=? 0) && (d2 <=? 0) && (d3 <=? 0))%float.

(** The triples of elements of a list, each in the order of the list. *)
Fixpoint pairs {A} (l : list A) : list (A * A) :=
  match l with
  | [] => []
  | a :: l => ((λ b, (a, b)) <$> l) ++ pairs l
  end.

Fixpoint triples {A} (l : list A) : list (A * A * A) :=
  match l with
  | [] => []
  | a :: l => ((λ bc, (a, bc.1, bc.2)) <$> pairs l) ++ triples l
  end.

(** The position of the first element that satisfies [f], from [i]. *)
Fixpoint first_index {A} (f : A → bool) (l : list A) (i : Z) : Z :=
  match l with
  | [] => -1
  | a :: l => if f a then i else first_index f l (i + 1)
  end.

(** ** Stand-ins for the collaborators

    Small executable stand-ins for the event store and for the libraries,
    used to run the service on concrete histories.  They follow what the
    libraries do with the options that the service passes, up to the random
    perturbation of the option [QJ], which they leave out. *)
Module Standin.

(** The check-ins of user 30: two groups of three, far from each other, and
    one check-in on its own. *)
Definition history_30 : list point :=
  [(0, 0); (0, 0.001); (0.001, 0); (1, 1); (1, 1.001); (1.001, 1); (5, 5)]%float.

(** The check-ins of user 44: the corners of a small square. *)
Definition history_44 : list point :=
  [(0, 0); (0, 0.0001); (0.0001, 0); (0.0001, 0.0001)]%float.

(** An event store with a few users: 22 has three check-ins that form a
    tight triangle, 44 four that form a square, 1 a single check-in, 5 two
    distant ones and a third whose latitude is not finite; 31 has the
    check-ins of 30 and 45 those of 44 in the opposite order; the store is
    unreachable for 404 and holds nothing for anybody else. *)
Definition execute (uid : Z) : result (list point) :=
  if bool_decide (uid = 22) then
    Return [(0, 0); (0, 0.0001); (0.0001, 0)]%float
  else if bool_decide (uid = 44) then Return history_44
  else if bool_decide (uid = 45) then Return (rev history_44)
  else if bool_decide (uid = 1) then Return [(-73.99, 40.75)%float]
  else if bool_decide (uid = 5) then
    Return [(-73.99, 40.75); (2.35, 48.85); (13.4, nan)]%float
  else if bool_decide (uid = 30) then Return history_30
  else if bool_decide (uid = 31) then Return (rev history_30)
  else if bool_decide (uid = 404) then Raise DriverError
  else Return [].

(** The radius query of the estimator on few samples: the squared distance
    is computed from the norms and the inner product, cut at [0], and
    compared with the square of the radius. *)
Definition within (eps : float) (x y : point) : bool :=
  let norm (z : point) := (z.1 * z.1 + z.2 * z.2)%float in
  let d := (-2 * (x.1 * y.1 + x.2 * y.2) + norm x + norm y)%float in
  ((if d <? 0 then 0 else d) <=? eps * eps)%float.

(** The point of index [i], for the indices of the matrix. *)
Definition pt (pts : list point) (i : nat) : point :=
  default (0, 0)%float (pts !! i).

(** The first of the lowest points, the leftmost of them. *)
Definition lower (a b : point) : bool :=
  ((a.2 <? b.2) || ((a.2 =? b.2) && (a.1 <? b.1)))%float.

Definition lowest (pts : list point) : nat :=
  foldl (λ best j, if lower (pt pts j) (pt pts best) then j else best)
        0%nat (seq 0 (length pts)).

(** The vertex after [cur] on the way round the points, counterclockwise:
    no point is to the right of the ray from [cur] through it, and of the
    points on that ray it is the farthest. *)
Definition turn (pts : list point) (cur cand j : nat) : nat :=
  let c := cross (pt pts cur) (pt pts cand) (pt pts j) in
  if ((c <? 0)
      || ((c =? 0) && (dist2 (pt pts cur) (pt pts cand)
                       <? dist2 (pt pts cur) (pt pts j))))%float
  then j else cand.

Definition next_vertex (pts : list point) (cur : nat) : nat :=
  foldl (turn pts cur) cur (seq 0 (length pts)).

Fixpoint wrap (fuel : nat) (pts : list point) (start cur : nat)
    (found : list nat) : list nat :=
  match fuel with
  | O => rev found
  | S fuel =>
      let nxt := next_vertex pts cur in
      if bool_decide (nxt = start) then rev found
      else wrap fuel pts start nxt (nxt :: found)
  end.

(** A hull constructor that refuses fewer than three points and points that
    are not finite, and otherwise returns the indices of the vertices of the
    hull, counterclockwise from the lowest point.  Points that are all on
    one line have no such hull: the perturbed points have one, and every
    point is taken as a vertex of it. *)
Definition ConvexHull (pts : list point) : result (list nat) :=
  if bool_decide (length pts < 3)%nat then Raise QhullError
  else if negb (forallb finite_point pts) then Raise QhullError
  else
    let start := lowest pts in
    let vertices := wrap (length pts) pts start start [start] in
    Return (if bool_decide (length vertices < 3)%nat
            then seq 0 (length pts) else vertices).

(** A triangulation that refuses fewer than four vertices, the size of the
    first simplex of the lifted points, and vertices that are not finite;
    the triangulation object is the list of the vertices. *)
Definition Delaunay (vertices : list point) : result (list point) :=
  if bool_decide (length vertices < 4)%nat then Raise QhullError
  else if negb (forallb finite_point vertices) then Raise QhullError
  else Return vertices.

(** The lookup: a triangle of three of the vertices that holds [p], or
    [-1].  The triangles of a triangulation cover the hull of its vertices,
    as these do. *)
Definition find_simplex (t : list point) (p : point) : result Z :=
  Return (first_index (λ abc : point * point * point,
                         in_triangle abc.1.1 abc.1.2 abc.2 p)
            (triples t) 0).

Definition lib : Collaborators :=
  Build_Collaborators execute within ConvexHull (list point) Delaunay
    find_simplex.

End Standin.

(** ** The service on the stand-ins *)

Definition clusters_standin : Z → result frame :=
  clusters (lib := Standin.lib).

Definition regions_standin : frame → list (hullarg (lib := Standin.lib)) :=
  regions (lib := Standin.lib).

Definition in_hull_standin
    : point → hullarg (lib := Standin.lib) → result bool :=
  in_hull (lib := Standin.lib).

Definition location_alert_standin : Z → float → float → result bool :=
  location_alert (lib := Standin.lib).

(** The frame of user 22: one cluster. *)
Definition data_22 : frame :=
  [Row 0 0 0; Row 0 0.0001 0; Row 0.0001 0 0]%float.

(** The frame of user 44: one cluster. *)
Definition data_44 : frame :=
  [Row 0 0 0; Row 0 0.0001 0; Row 0.0001 0 0; Row 0.0001 0.0001 0]%float.

(** A frame with a cluster of two rows and a cluster of three. *)
Definition data_two_clusters : frame :=
  [Row 5 5 0; Row 0 0 1; Row 5 6 0; Row 0 1 1; Row 1 0 1; Row 9 9 (-1)]%float.

(** A traveller: five check-ins, each far from the others, whoever asks. *)
Definition history_traveller : list point :=
  [(0, 0); (1, 1); (2, 2); (3, 3); (4, 4)]%float.

Definition lib_traveller : Collaborators :=
  Build_Collaborators (λ _, Return history_traveller) Standin.within
    Standin.ConvexHull (list point) Standin.Delaunay Standin.find_simplex.

(** A reader of coordinates that knows two texts. *)
Definition float_of_str_standin (s : string) : result float :=
  if bool_decide (s = "0.00003") then Return 0.00003%float
  else if bool_decide (s = "40.75") then Return 40.75%float
  else Raise ValueError.

(** * Facts *)

Section Contract.

Context {lib : Collaborators}.

(** ** Facts on [regions] *)

Lemma group_keys_sorted data : StronglySorted Z.le (group_keys data).
Proof. apply StronglySorted_merge_sort; apply _. Qed.

Lemma group_keys_NoDup data : NoDup (group_keys data).
Proof.
  unfold group_keys. rewrite merge_sort_Permutation. apply NoDup_remove_dups.
Qed.

Lemma elem_of_group_keys data k : k ∈ group_keys data ↔ ∃ r, r ∈ data ∧ cl r = k.
Proof.
  unfold group_keys.
  rewrite merge_sort_Permutation, elem_of_remove_dups, list_elem_of_fmap.
  split; intros (r & ? & ?); by exists r.
Qed.

Lemma regions_step_negative hulls k g :
  k < 0 → regions_step (None, hulls) (k, g) = (None, hulls).
Proof. intros Hk. unfold regions_step; simpl. by rewrite bool_decide_eq_false_2 by lia. Qed.

Lemma regions_step_cluster data points hulls k :
  0 ≤ k →
  regions_step (points, hulls) (k, group_of data k)
  = (Some (as_matrix (group_of data k)), hulls ++ option_list (region_of data k)).
Proof.
  intros Hk. unfold regions_step, region_of; cbn [fst snd].
  rewrite bool_decide_eq_true_2 by done.
  destruct (hull_attempt _); cbn [bind try_except option_list];
    by rewrite ?app_nil_r.
Qed.

(** The loop of [regions] over groups whose labels increase: as long as a
    negative label is still to come, [points] is unbound. *)
Lemma regions_loop data keys points hulls :
  StronglySorted Z.le keys →
  points = None ∨ Forall (λ k, 0 ≤ k) keys →
  (foldl regions_step (points, hulls) ((λ k, (k, group_of data k)) <$> keys)).2
  = hulls ++ omap (region_of data) (filter (λ k, 0 ≤ k) keys).
Proof.
  intros Hs. revert points hulls.
  induction Hs as [|k keys Hs IH Hk]; intros points hulls Hinv.
  { by rewrite app_nil_r. }
  rewrite fmap_cons. cbn [foldl].
  destruct (decide (0 ≤ k)) as [Hk0|Hk0].
  - rewrite regions_step_cluster, filter_cons_True by done.
    rewrite IH.
    + rewrite <- app_assoc. f_equal. cbn [omap list_omap].
      by destruct (region_of data k).
    + right. eapply Forall_impl; [exact Hk|]. simpl. lia.
  - rewrite filter_cons_False by done.
    destruct Hinv as [->|Hall]; [|by inversion Hall].
    rewrite regions_step_negative by lia. apply IH. by left.
Qed.

Lemma regions_spec data :
  regions data = omap (region_of data) (filter (λ k, 0 ≤ k) (group_keys data)).
Proof.
  unfold regions, groupby.
  rewrite regions_loop; [done|apply group_keys_sorted|by left].
Qed.

Lemma region_of_Some data k h :
  region_of data k = Some h ↔
  ∃ vertices hull_vertices,
    ConvexHull (as_matrix (group_of data k)) = Return vertices
    ∧ mapM (λ i, as_matrix (group_of data k) !! i) vertices = Some hull_vertices
    ∧ h = NdArray hull_vertices.
Proof.
  unfold region_of, hull_attempt.
  destruct (ConvexHull _) as [vs|e]; cbn [bind].
  - destruct (mapM _ vs) as [hv|] eqn:Hm.
    + split.
      * intros [= <-]. by exists vs, hv.
      * intros (vs' & hv' & [= <-] & Hm' & ->). congruence.
    + split; [done|]. intros (vs' & hv' & [= <-] & Hm' & _). congruence.
  - split; [done|]. by intros (? & ? & ? & _).
Qed.

Lemma region_of_degenerate data k e :
  ConvexHull (as_matrix (group_of data k)) = Raise e → region_of data k = None.
Proof. intros He. unfold region_of, hull_attempt. by rewrite He. Qed.

Lemma StronglySorted_filter_Z (P : Z → Prop) `{∀ k, Decision (P k)} keys :
  StronglySorted Z.le keys → StronglySorted Z.le (filter P keys).
Proof.
  induction 1 as [|k keys Hs IH Hk]; [constructor|].
  destruct (decide (P k)).
  - rewrite filter_cons_True by done. constructor; [done|].
    rewrite Forall_forall in Hk |- *. intros k' Hk'.
    apply list_elem_of_filter in Hk' as [_ Hk']. by apply Hk.
  - by rewrite filter_cons_False.
Qed.

(** Taking the rows of one label out of the frame takes that label, and
    nothing else, out of the groups. *)
Lemma group_keys_without data k :
  group_keys (filter (λ r, cl r ≠ k) data) = filter (λ k', k' ≠ k) (group_keys data).
Proof.
  apply (StronglySorted_unique Z.le).
  - apply group_keys_sorted.
  - apply StronglySorted_filter_Z, group_keys_sorted.
  - apply NoDup_Permutation.
    + apply group_keys_NoDup.
    + apply NoDup_filter, group_keys_NoDup.
    + intros k'. rewrite list_elem_of_filter, !elem_of_group_keys.
      setoid_rewrite list_elem_of_filter. split.
      * intros (r & [Hne Hr] & <-). split; [done|by exists r].
      * intros (Hne & r & Hr & <-). by exists r.
Qed.

Lemma group_of_without data k k' :
  k' ≠ k → group_of (filter (λ r, cl r ≠ k) data) k' = group_of data k'.
Proof.
  intros Hne. unfold group_of.
  induction data as [|r data IH]; [done|].
  destruct (decide (cl r = k')) as [Hr|Hr].
  - rewrite (filter_cons_True (λ r, cl r ≠ k)) by congruence.
    do 2 (rewrite (filter_cons_True (λ r, cl r = k')) by done). by f_equal.
  - rewrite (filter_cons_False (λ r, cl r = k') r data) by done. rewrite <- IH.
    destruct (decide (cl r ≠ k)).
    + rewrite (filter_cons_True (λ r, cl r ≠ k)) by done.
      by rewrite filter_cons_False.
    + by rewrite (filter_cons_False (λ r, cl r ≠ k)).
Qed.

Lemma region_of_without data k k' :
  k' ≠ k → region_of (filter (λ r, cl r ≠ k) data) k' = region_of data k'.
Proof. intros Hne. unfold region_of. by rewrite group_of_without. Qed.

Lemma regions_without data k :
  region_of data k = None →
  regions (filter (λ r, cl r ≠ k) data) = regions data.
Proof.
  intros Hk. rewrite !regions_spec, group_keys_without.
  induction (group_keys data) as [|k' keys IH]; [done|].
  destruct (decide (k' = k)) as [->|Hne].
  - rewrite (filter_cons_False (λ k', k' ≠ k)) by (by intros ?).
    rewrite IH. destruct (decide (0 ≤ k)).
    + rewrite (filter_cons_True (λ k, 0 ≤ k) k) by done.
      cbn [omap list_omap]. by rewrite Hk.
    + by rewrite (filter_cons_False (λ k, 0 ≤ k) k).
  - rewrite (filter_cons_True (λ k', k' ≠ k)) by done.
    destruct (decide (0 ≤ k')).
    + rewrite !(filter_cons_True (λ k, 0 ≤ k) k') by done.
      cbn [omap list_omap]. rewrite region_of_without, IH by done. done.
    + by rewrite !(filter_cons_False (λ k, 0 ≤ k) k').
Qed.

(** ** Facts on [in_hull] and the loop of [location_alert] *)

Lemma regions_ndarray data : Forall is_ndarray (regions data).
Proof.
  rewrite regions_spec, Forall_forall. intros h Hh.
  apply list_elem_of_omap in Hh as (k & _ & Hk).
  apply region_of_Some in Hk as (_ & hv & _ & _ & ->). by exists hv.
Qed.

Lemma in_hull_ndarray p h : is_ndarray h → in_hull p h = Return (inside p h).
Proof. intros [vs ->]. done. Qed.

Lemma alert_loop_spec p pre hulls res :
  Forall is_ndarray hulls →
  alert_loop p (pre ++ hulls) (seq (length pre) (length hulls)) res
  = Return (res || existsb (inside p) hulls).
Proof.
  intros Hnd. revert pre res.
  induction Hnd as [|h hulls Hh Hnd IH]; intros pre res.
  { cbn. by rewrite orb_false_r. }
  cbn [length seq alert_loop existsb].
  rewrite list_lookup_middle by done.
  replace (pre ++ h :: hulls) with ((pre ++ [h]) ++ hulls)
    by (by rewrite <- app_assoc).
  replace (S (length pre)) with (length (pre ++ [h]))
    by (rewrite length_app; simpl; lia).
  destruct res; cbn [bind].
  - by rewrite IH.
  - rewrite in_hull_ndarray by done. cbn [bind]. by rewrite IH.
Qed.

Lemma location_alert_spec uid lon lat data :
  clusters uid = Return data →
  location_alert uid lon lat
  = Return (negb (existsb (inside (lon, lat)) (regions data))).
Proof.
  intros Hc. unfold location_alert. rewrite Hc. cbn [bind].
  pose proof (alert_loop_spec (lon, lat) [] (regions data) false
                (regions_ndarray data)) as Hl.
  cbn [app length] in Hl. by rewrite Hl.
Qed.

(** ** Facts on the estimator *)

Lemma unlabelled_le labels : (unlabelled labels ≤ length labels)%nat.
Proof. apply length_filter. Qed.

Lemma unlabelled_insert labels i c :
  labels !! i = Some NOISE → c ≠ NOISE →
  S (unlabelled (<[i:=c]> labels)) = unlabelled labels.
Proof.
  unfold unlabelled. revert i.
  induction labels as [|c' labels IH]; intros [|i] Hi Hc; try done.
  - injection Hi as ->. change (<[0%nat:=c]> (NOISE :: labels)) with (c :: labels).
    rewrite (filter_cons_True _ NOISE), (filter_cons_False _ c) by done. done.
  - cbn [lookup list_lookup] in Hi. specialize (IH i Hi Hc).
    change (<[S i:=c]> (c' :: labels)) with (c' :: <[i:=c]> labels).
    destruct (decide (c' = NOISE)).
    + rewrite !(filter_cons_True _ c') by done. cbn [length]. by rewrite IH.
    + by rewrite !(filter_cons_False _ c') by done.
Qed.

Lemma label_of_lookup labels i :
  (i < length labels)%nat → label_of labels i = NOISE → labels !! i = Some NOISE.
Proof.
  intros Hi. unfold label_of.
  destruct (lookup_lt_is_Some_2 labels i Hi) as [c ->]. simpl. by intros ->.
Qed.

Lemma label_of_insert labels i j c :
  (i < length labels)%nat →
  label_of (<[i:=c]> labels) j = if decide (i = j) then c else label_of labels j.
Proof.
  intros Hi. unfold label_of. destruct (decide (i = j)) as [->|Hne].
  - by rewrite list_lookup_insert_eq.
  - by rewrite list_lookup_insert_ne.
Qed.

Lemma push_unlabelled_elem labels nb stack v :
  v ∈ push_unlabelled labels nb stack
  ↔ v ∈ stack ∨ (v ∈ nb ∧ label_of labels v = NOISE).
Proof.
  unfold push_unlabelled. revert stack.
  induction nb as [|w nb IH]; intros stack; cbn [foldl].
  - rewrite elem_of_nil. split; [by left|]. by intros [?|[[] _]].
  - rewrite IH. case_bool_decide as Hw; rewrite ?elem_of_cons.
    + split.
      * intros [[->|?]|[? ?]]; [right|left|right]; auto.
      * intros [?|[[->|?] ?]]; [left|left|right]; auto.
    + split.
      * intros [?|[? ?]]; [left|right]; auto.
      * intros [?|[[->|?] ?]]; [left|done|right]; auto.
Qed.

Lemma push_unlabelled_length labels nb stack :
  (length (push_unlabelled labels nb stack) ≤ length nb + length stack)%nat.
Proof.
  unfold push_unlabelled. revert stack.
  induction nb as [|w nb IH]; intros stack; cbn [foldl]; [simpl; lia|].
  etrans; [apply IH|]. case_bool_decide; simpl; lia.
Qed.

Section inner_loop.

Variable n : nat.
Variable core : list bool.
Variable nbs : list (list nat).
Hypothesis neighb_bound : ∀ i v, v ∈ neighb nbs i → (v < n)%nat.
Hypothesis neighb_length : ∀ i, (length (neighb nbs i) ≤ n)%nat.

Local Abbreviation pending_wf := (pending_wf n).
Local Abbreviation turns_left := (turns_left n).

Lemma visit_wf label_num labels stack i :
  pending_wf labels (i :: stack) →
  pending_wf (visit core nbs label_num labels stack i).1
             (visit core nbs label_num labels stack i).2.
Proof using Type*.
  intros [Hlen Hp]. apply Forall_cons in Hp as [Hi Hst].
  unfold visit. case_bool_decide; cbn [fst snd]; [|done].
  split; [by rewrite length_insert|].
  destruct (is_core core i); [|done].
  rewrite Forall_forall. intros v [Hv|[Hv _]]%push_unlabelled_elem.
  - by eapply Forall_forall in Hst.
  - by eapply neighb_bound.
Qed.

Lemma visit_turns_left label_num labels stack i :
  label_num ≠ NOISE →
  pending_wf labels (i :: stack) →
  (turns_left (visit core nbs label_num labels stack i).1
              (visit core nbs label_num labels stack i).2
   < turns_left labels (i :: stack))%nat.
Proof using Type*.
  intros Hnum [Hlen Hp]. apply Forall_cons in Hp as [Hi Hst].
  unfold visit, turns_left. case_bool_decide as Hl; cbn [fst snd length]; [|lia].
  apply label_of_lookup in Hl; [|lia].
  pose proof (unlabelled_insert labels i label_num Hl Hnum) as Hu.
  rewrite <- Hu.
  assert (length (if is_core core i
                  then push_unlabelled (<[i:=label_num]> labels) (neighb nbs i) stack
                  else stack) ≤ n + length stack)%nat; [|lia].
  destruct (is_core core i); [|lia].
  etrans; [apply push_unlabelled_length|]. pose proof (neighb_length i). lia.
Qed.

(** The [while] loop keeps every invariant of its turns, and ends within the
    budget [turns_left]. *)
Lemma expand_invariant (P : list Z → list nat → Prop) label_num :
  label_num ≠ NOISE →
  (∀ labels stack i,
     pending_wf labels (i :: stack) → P labels (i :: stack) →
     P (visit core nbs label_num labels stack i).1
       (visit core nbs label_num labels stack i).2) →
  ∀ fuel labels stack i,
    pending_wf labels (i :: stack) → P labels (i :: stack) →
    (turns_left labels (i :: stack) ≤ fuel)%nat →
    ∃ labels', expand fuel core nbs label_num labels stack i = Some labels'
               ∧ length labels' = n ∧ P labels' [].
Proof using Type*.
  intros Hnum Hstep fuel.
  induction fuel as [|fuel IH]; intros labels stack i Hwf HP Hfuel.
  { unfold turns_left in Hfuel. simpl in Hfuel. lia. }
  pose proof (visit_wf label_num _ _ _ Hwf) as Hwf'.
  pose proof (visit_turns_left label_num _ _ _ Hnum Hwf) as Hlt.
  pose proof (Hstep _ _ _ Hwf HP) as HP'.
  cbn [expand].
  destruct (visit core nbs label_num labels stack i) as [labels' stack'].
  cbn [fst snd] in *. destruct stack' as [|v rest].
  - exists labels'. split; [done|]. split; [apply Hwf'|done].
  - apply IH; [done|done|lia].
Qed.

(** The outer loop keeps every invariant that its skips and its searches
    keep. *)
Lemma sweep_invariant (Q : Z → list Z → list nat → Prop) fuel :
  (∀ label_num labels i todo,
     Q label_num labels (i :: todo) →
     label_of labels i ≠ NOISE ∨ is_core core i = false →
     Q label_num labels todo) →
  (∀ label_num labels i todo,
     0 ≤ label_num → length labels = n → (i < n)%nat →
     Q label_num labels (i :: todo) →
     label_of labels i = NOISE → is_core core i = true →
     ∃ labels', expand fuel core nbs label_num labels [] i = Some labels'
                ∧ length labels' = n ∧ Q (label_num + 1) labels' todo) →
  ∀ todo label_num labels,
    Forall (λ v, (v < n)%nat) todo → 0 ≤ label_num → length labels = n →
    Q label_num labels todo →
    ∃ labels' label_num',
      sweep fuel core nbs label_num labels todo = Some labels'
      ∧ length labels' = n ∧ label_num ≤ label_num' ∧ Q label_num' labels' [].
Proof using Type*.
  intros Hskip Hsearch todo.
  induction todo as [|i todo IH]; intros label_num labels Htodo Hnum Hlen HQ.
  { exists labels, label_num. cbn. repeat split; [done|lia|done]. }
  apply Forall_cons in Htodo as [Hi Htodo]. cbn [sweep].
  destruct (bool_decide (label_of labels i ≠ NOISE) || negb (is_core core i))
    eqn:Hcase.
  - apply IH; [done..|]. eapply Hskip; [done|].
    apply orb_true_iff in Hcase as [Hc|Hc].
    + left. by apply bool_decide_eq_true in Hc.
    + right. by apply negb_true_iff in Hc.
  - apply orb_false_iff in Hcase as [Hl Hc].
    apply bool_decide_eq_false in Hl. apply negb_false_iff in Hc.
    assert (label_of labels i = NOISE) as Hl' by (by destruct (decide (label_of labels i = NOISE))).
    destruct (Hsearch label_num labels i todo) as (labels' & -> & Hlen' & HQ');
      [done..|].
    cbn. destruct (IH (label_num + 1) labels') as (l'' & num'' & ? & ? & ? & ?);
      [done|lia|done|done|].
    exists l'', num''. repeat split; [done|done|lia|done].
Qed.

End inner_loop.

Lemma visit_label_ok core nbs label_num labels stack i :
  0 ≤ label_num → Forall label_ok labels →
  Forall label_ok (visit core nbs label_num labels stack i).1.
Proof.
  intros Hnum Hok. unfold visit. case_bool_decide; cbn [fst]; [|done].
  apply Forall_insert; [done|by right].
Qed.

(** The budget of [dbscan_inner] is never spent: the labelling ends, with one
    label per sample, each a cluster number or the noise label. *)
Lemma dbscan_inner_total n core nbs :
  (∀ i v, v ∈ neighb nbs i → (v < n)%nat) →
  (∀ i, (length (neighb nbs i) ≤ n)%nat) →
  ∃ labels, dbscan_inner core nbs n = Some labels
            ∧ length labels = n ∧ Forall label_ok labels.
Proof.
  intros Hb Hl. unfold dbscan_inner.
  destruct (sweep_invariant n core nbs Hb Hl (λ _ labels _, Forall label_ok labels)
              (dbscan_fuel n)) with (todo := seq 0 n) (label_num := 0)
              (labels := replicate n NOISE)
    as (labels & num & Hsw & Hlen & _ & Hok).
  - done.
  - intros label_num labels i todo Hnum Hlen Hi Hok Hnoise Hcore.
    apply (expand_invariant n core nbs Hb Hl (λ labels _, Forall label_ok labels)).
    + unfold NOISE. lia.
    + intros. by apply visit_label_ok.
    + split; [done|]. by apply Forall_singleton.
    + done.
    + unfold turns_left, dbscan_fuel. pose proof (unlabelled_le labels).
      cbn [length]. nia.
  - apply Forall_forall. intros v Hv%elem_of_seq. lia.
  - done.
  - apply length_replicate.
  - apply Forall_replicate. by left.
  - by exists labels.
Qed.

Lemma neighb_neighborhoods eps X i :
  neighb (neighborhoods eps X) i = from_option (neighborhood eps X) [] (X !! i).
Proof.
  unfold neighb, neighborhoods. rewrite list_lookup_fmap. by destruct (X !! i).
Qed.

Lemma elem_of_neighborhood eps X x v :
  v ∈ neighborhood eps X x ↔ ∃ y, X !! v = Some y ∧ within eps x y = true.
Proof.
  unfold neighborhood, neighbour_index.
  rewrite list_elem_of_filter, elem_of_seq. split.
  - intros [Hw Hv]. destruct (X !! v) as [y|]; [|done].
    exists y. split; [done|]. by apply Is_true_eq_true.
  - intros (y & Hy & Hw). rewrite Hy. split; [by apply Is_true_eq_left|].
    apply lookup_lt_Some in Hy. lia.
Qed.

Lemma neighborhood_length eps X x : (length (neighborhood eps X x) ≤ length X)%nat.
Proof.
  unfold neighborhood. etrans; [apply length_filter|]. by rewrite length_seq.
Qed.

Lemma neighborhood_NoDup eps X x : NoDup (neighborhood eps X x).
Proof. apply NoDup_filter, NoDup_seq. Qed.

Lemma neighborhoods_bound eps X i v :
  v ∈ neighb (neighborhoods eps X) i → (v < length X)%nat.
Proof.
  rewrite neighb_neighborhoods. destruct (X !! i) as [x|]; simpl.
  - intros (y & Hy & _)%elem_of_neighborhood. by apply lookup_lt_Some in Hy.
  - by intros ?%elem_of_nil.
Qed.

Lemma neighborhoods_length eps X i :
  (length (neighb (neighborhoods eps X) i) ≤ length X)%nat.
Proof.
  rewrite neighb_neighborhoods. destruct (X !! i) as [x|]; simpl; [|lia].
  apply neighborhood_length.
Qed.

(** On a matrix that passes the input check, [fit] delivers one label per
    sample. *)
Lemma DBSCAN_fit_total eps min_samples X :
  (0 <? eps)%float = true → X ≠ [] → forallb finite_point X = true →
  ∃ labels, DBSCAN_fit eps min_samples X = Return labels
            ∧ length labels = length X ∧ Forall label_ok labels.
Proof.
  intros Heps Hne Hfin. unfold DBSCAN_fit, check_array.
  rewrite bool_decide_eq_false_2, Hfin by done. cbn [bind]. rewrite Heps.
  destruct (dbscan_inner_total (length X)
              (core_samples min_samples (neighborhoods eps X))
              (neighborhoods eps X))
    as (labels & -> & Hlen & Hok).
  - apply neighborhoods_bound.
  - apply neighborhoods_length.
  - by exists labels.
Qed.

(** With no core sample, the outer loop leaves the labels as they are. *)
Lemma sweep_no_core fuel core nbs label_num labels todo :
  (∀ i, is_core core i = false) →
  sweep fuel core nbs label_num labels todo = Some labels.
Proof.
  intros Hcore. induction todo as [|i todo IH]; [done|].
  cbn [sweep]. by rewrite Hcore, orb_true_r.
Qed.

Lemma core_samples_small eps X min_samples i :
  (length X < min_samples)%nat →
  is_core (core_samples min_samples (neighborhoods eps X)) i = false.
Proof.
  intros Hn. unfold is_core, core_samples.
  rewrite list_lookup_fmap.
  destruct (neighborhoods eps X !! i) as [nb|] eqn:Hnb; [|done]. simpl.
  apply bool_decide_eq_false_2.
  pose proof (neighborhoods_length eps X i) as Hl.
  unfold neighb in Hl. rewrite Hnb in Hl. simpl in Hl. lia.
Qed.

(** Fewer samples than [min_samples]: every sample is noise. *)
Lemma DBSCAN_fit_small eps min_samples X :
  (0 <? eps)%float = true →
  X ≠ [] → forallb finite_point X = true → (length X < min_samples)%nat →
  DBSCAN_fit eps min_samples X = Return (replicate (length X) NOISE).
Proof.
  intros Heps Hne Hfin Hn. unfold DBSCAN_fit, check_array.
  rewrite bool_decide_eq_false_2, Hfin by done. cbn [bind]. rewrite Heps.
  unfold dbscan_inner. rewrite sweep_no_core; [done|].
  intros i. by apply core_samples_small.
Qed.

(** ** What the labelling computes *)

Section labelling.

Variable n : nat.
Variable core : list bool.
Variable nbs : list (list nat).

(** The neighbourhoods are those of a symmetric and reflexive relation on
    the [n] samples, and a sample is core when its neighbourhood has three
    members. *)
Hypothesis neighb_bound : ∀ i v, v ∈ neighb nbs i → (v < n)%nat.
Hypothesis neighb_length : ∀ i, (length (neighb nbs i) ≤ n)%nat.
Hypothesis neighb_refl : ∀ i, (i < n)%nat → i ∈ neighb nbs i.
Hypothesis neighb_sym : ∀ i j, j ∈ neighb nbs i → i ∈ neighb nbs j.
Hypothesis neighb_NoDup : ∀ i, NoDup (neighb nbs i).
Hypothesis core_three :
  ∀ i, is_core core i = true ↔ (3 ≤ length (neighb nbs i))%nat.

(** Any equivalence that holds between a core sample and its neighbours. *)
Variable conn : nat → nat → Prop.
Hypothesis conn_refl : ∀ i, (i < n)%nat → conn i i.
Hypothesis conn_sym : ∀ i j, conn i j → conn j i.
Hypothesis conn_trans : ∀ i j k, conn i j → conn j k → conn i k.
Hypothesis conn_step :
  ∀ c v, is_core core c = true → v ∈ neighb nbs c → conn c v.

Local Abbreviation inner_inv := (inner_inv core nbs conn).
Local Abbreviation outer_inv := (outer_inv n core nbs conn).

(** A sample that is not core has at most one neighbour besides itself. *)
Lemma border_unique_neighbour v a b :
  is_core core v = false →
  a ∈ neighb nbs v → b ∈ neighb nbs v → a ≠ v → b ≠ v → a = b.
Proof using neighb_bound neighb_refl neighb_sym neighb_NoDup core_three.
  intros Hv Ha Hb Hav Hbv. destruct (decide (a = b)) as [|Hab]; [done|].
  assert (v ∈ neighb nbs v) as Hvv.
  { apply neighb_refl. eapply neighb_bound, neighb_sym, Ha. }
  assert ([v; a; b] ⊆+ neighb nbs v) as Hsub.
  { apply NoDup_submseteq.
    - apply NoDup_cons; split;
        [rewrite !elem_of_cons, elem_of_nil; intros [|[|[]]]; lia|].
      apply NoDup_cons; split;
        [rewrite elem_of_cons, elem_of_nil; intros [|[]]; lia|].
      apply NoDup_singleton.
    - intros x. rewrite !elem_of_cons, elem_of_nil. intros [->|[->|[->|[]]]]; done. }
  apply submseteq_length in Hsub. simpl in Hsub.
  apply core_three in Hsub. congruence.
Qed.

Lemma label_of_range (P : Z → Prop) labels v :
  Forall P labels → label_of labels v ≠ NOISE → P (label_of labels v).
Proof using Type.
  intros Hall Hv. unfold label_of in *.
  destruct (labels !! v) as [c|] eqn:Hc; [|done]. simpl.
  eapply Forall_forall; [done|]. by eapply list_elem_of_lookup_2.
Qed.

Lemma visit_labelled k labels stack i :
  label_of labels i ≠ NOISE → visit core nbs k labels stack i = (labels, stack).
Proof using Type. intros Hi. unfold visit. by rewrite bool_decide_eq_false_2. Qed.

Lemma visit_unlabelled k labels stack i :
  label_of labels i = NOISE →
  visit core nbs k labels stack i
  = (<[i:=k]> labels,
     if is_core core i
     then push_unlabelled (<[i:=k]> labels) (neighb nbs i) stack
     else stack).
Proof using Type. intros Hi. unfold visit. by rewrite bool_decide_eq_true_2. Qed.

(** A turn of the search on a sample that already has a label. *)
Lemma inner_inv_skip k r labels0 labels stack i :
  label_of labels i ≠ NOISE →
  inner_inv k r labels0 labels (i :: stack) →
  inner_inv k r labels0 labels stack.
Proof using Type.
  intros Hi [Hrange Hframe Hclosed Hsupp Hcr Hpc Hps Hroot].
  split; try done.
  - intros c v Hc Hv Hlc.
    destruct (Hclosed c v Hc Hv Hlc) as [?|(Hl & Hin & Hk)]; [by left|].
    right. apply elem_of_cons in Hin as [->|Hin]; done.
  - intros v Hv. apply Hpc. by right.
  - intros v Hv. apply Hps. by right.
  - destruct Hroot as [?|Hr]; [by left|].
    apply elem_of_cons in Hr as [->|Hr]; [by left|by right].
Qed.

(** A turn of the search on a sample without a label: it joins the cluster,
    and when it is core its unlabelled neighbours are pushed. *)
Lemma inner_inv_label k r labels0 labels stack i :
  0 ≤ k → length labels = n → (i < n)%nat →
  label_of labels i = NOISE →
  inner_inv k r labels0 labels (i :: stack) →
  inner_inv k r labels0 (<[i:=k]> labels)
    (if is_core core i
     then push_unlabelled (<[i:=k]> labels) (neighb nbs i) stack
     else stack).
Proof using neighb_bound neighb_refl neighb_sym neighb_NoDup core_three
            conn_trans conn_step.
  intros Hk Hlen Hi Hnoise [Hrange Hframe Hclosed Hsupp Hcr Hpc Hps Hroot].
  assert (NOISE ≠ k) as HkN by (unfold NOISE; lia).
  assert (∀ v, label_of (<[i:=k]> labels) v
               = if decide (i = v) then k else label_of labels v) as Hnew.
  { intros v. apply label_of_insert. lia. }
  set (pending' := if is_core core i
                   then push_unlabelled (<[i:=k]> labels) (neighb nbs i) stack
                   else stack).
  assert (∀ v, v ∈ stack → v ∈ pending') as Hstack.
  { intros v Hv. unfold pending'. destruct (is_core core i); [|done].
    apply push_unlabelled_elem. by left. }
  assert (∀ v, v ∈ pending' →
               v ∈ stack
               ∨ (is_core core i = true ∧ v ∈ neighb nbs i
                  ∧ label_of (<[i:=k]> labels) v = NOISE)) as Hpend.
  { intros v Hv. unfold pending' in Hv. destruct (is_core core i); [|by left].
    apply push_unlabelled_elem in Hv as [?|[? ?]]; [by left|by right]. }
  split.
  - apply Forall_insert; [done|]. right. lia.
  - intros v. rewrite Hnew. destruct (decide (i = v)) as [<-|Hne]; [|done].
    right. split; [|done].
    destruct (Hframe i) as [<-|[? ?]]; congruence.
  - intros c v Hc Hv. rewrite !Hnew.
    destruct (decide (i = c)) as [<-|Hic].
    + (* the sample just labelled is core: its neighbours follow *)
      intros _. destruct (decide (i = v)) as [<-|Hiv]; [by left|].
      destruct (decide (label_of labels v = NOISE)) as [Hlv|Hlv].
      * right. split; [done|]. split; [|done].
        unfold pending'. rewrite Hc. apply push_unlabelled_elem. right.
        split; [done|]. rewrite Hnew. by rewrite decide_False.
      * left. destruct (is_core core v) eqn:Hcv.
        -- destruct (Hclosed v i Hcv (neighb_sym _ _ Hv) Hlv)
             as [Heq|(_ & _ & Heq)]; congruence.
        -- destruct (Hsupp v Hlv) as (c' & Hc' & Hvc' & Hlc').
           assert (c' = i); [|congruence].
           apply (border_unique_neighbour v); [done| | |congruence|congruence].
           ++ by apply neighb_sym.
           ++ by apply neighb_sym.
    + intros Hlc. destruct (Hclosed c v Hc Hv Hlc) as [Heq|(Hl & Hin & Hck)].
      * left. destruct (decide (i = v)) as [<-|Hiv]; [congruence|done].
      * destruct (decide (i = v)) as [<-|Hiv]; [by left|].
        right. split; [done|]. split; [|done].
        apply Hstack. apply elem_of_cons in Hin as [->|Hin]; done.
  - intros v. rewrite Hnew. destruct (decide (i = v)) as [<-|Hiv].
    + intros _. destruct (Hps i) as [Hc|(c & Hc & Hv & Hlc)]; [by left|..].
      * exists i. rewrite Hnew, decide_True by done.
        split; [done|]. split; [by apply neighb_refl|done].
      * exists c. rewrite Hnew. split; [done|]. split; [done|].
        destruct (decide (i = c)) as [<-|?]; [done|done].
    + intros Hlv. destruct (Hsupp v Hlv) as (c & Hc & Hv & Hlc).
      exists c. rewrite Hnew. split; [done|]. split; [done|].
      destruct (decide (i = c)) as [<-|?]; [congruence|done].
  - intros v. rewrite Hnew. destruct (decide (i = v)) as [<-|Hiv].
    + intros _. apply Hpc. by left.
    + apply Hcr.
  - intros v [Hv|(Hc & Hv & _)]%Hpend.
    + apply Hpc. by right.
    + eapply conn_trans; [apply Hpc; by left|]. by apply conn_step.
  - intros v [Hv|(Hc & Hv & _)]%Hpend.
    + destruct (Hps v) as [?|(c & Hc & Hvc & Hlc)]; [by right|by left|].
      right. exists c. rewrite Hnew. split; [done|]. split; [done|].
      destruct (decide (i = c)) as [<-|?]; [done|done].
    + right. exists i. rewrite Hnew, decide_True by done. done.
  - rewrite Hnew. destruct (decide (i = r)) as [<-|Hir]; [by left|].
    destruct Hroot as [?|Hr]; [by left|]. right. apply Hstack.
    apply elem_of_cons in Hr as [->|Hr]; done.
Qed.

Lemma visit_inner_inv k r labels0 labels stack i :
  0 ≤ k → pending_wf n labels (i :: stack) →
  inner_inv k r labels0 labels (i :: stack) →
  inner_inv k r labels0 (visit core nbs k labels stack i).1
                        (visit core nbs k labels stack i).2.
Proof using neighb_bound neighb_refl neighb_sym neighb_NoDup core_three
            conn_trans conn_step.
  intros Hk [Hlen Hp] Hinv. apply Forall_cons in Hp as [Hi _].
  destruct (decide (label_of labels i = NOISE)) as [Hl|Hl].
  - rewrite visit_unlabelled by done. by apply inner_inv_label.
  - rewrite visit_labelled by done. by eapply inner_inv_skip.
Qed.

(** The search starts from a core sample without a label. *)
Lemma inner_inv_init k r labels todo :
  0 ≤ k → (r < n)%nat → is_core core r = true →
  outer_inv k labels (r :: todo) → inner_inv k r labels labels [r].
Proof using conn_refl.
  intros Hk Hr Hc [Hrange Hclosed Hsupp Hconn Hdone]. split.
  - eapply Forall_impl; [done|]. intros c [?|?]; [by left|right; lia].
  - by left.
  - intros c v Hcc Hv Hl. left. by apply Hclosed.
  - done.
  - intros v Hv. exfalso.
    assert (label_of labels v ≠ NOISE) as Hl by (unfold NOISE; lia).
    pose proof (label_of_range _ labels v Hrange Hl) as [?|?]; [done|lia].
  - intros v ->%list_elem_of_singleton. by apply conn_refl.
  - intros v ->%list_elem_of_singleton. by left.
  - right. by apply list_elem_of_singleton.
Qed.

(** When the stack is empty the cluster is complete. *)
Lemma inner_inv_final k r labels0 labels todo :
  outer_inv k labels0 (r :: todo) → inner_inv k r labels0 labels [] →
  outer_inv (k + 1) labels todo.
Proof using conn_sym conn_trans.
  intros [Hrange0 Hclosed0 Hsupp0 Hconn0 Hdone0]
         [Hrange Hframe Hclosed Hsupp Hcr Hpc Hps Hroot].
  split.
  - eapply Forall_impl; [done|]. intros c [?|?]; [by left|right; lia].
  - intros c v Hc Hv Hl.
    destruct (Hclosed c v Hc Hv Hl) as [?|(_ & Hin & _)]; [done|].
    by apply elem_of_nil in Hin.
  - done.
  - intros u v Huv Hu. destruct (decide (label_of labels u = k)) as [Hk|Hk].
    + eapply conn_trans; [apply conn_sym, Hcr; done|]. apply Hcr. congruence.
    + destruct (Hframe u) as [Hu0|[_ ?]]; [|done].
      destruct (Hframe v) as [Hv0|[_ ?]]; [|congruence].
      apply Hconn0; congruence.
  - intros c Hcn Hc Hin. destruct (decide (c = r)) as [->|Hcr'].
    + destruct Hroot as [?|Hr]; [done|]. by apply elem_of_nil in Hr.
    + assert (label_of labels0 c ≠ NOISE) as Hl0.
      { apply Hdone0; [done..|]. rewrite elem_of_cons. by intros [?|?]. }
      destruct (Hframe c) as [->|[? _]]; done.
Qed.

(** The labelling that [dbscan_inner] returns. *)
Lemma dbscan_inner_outer_inv :
  ∃ labels label_num,
    dbscan_inner core nbs n = Some labels
    ∧ length labels = n ∧ outer_inv label_num labels [].
Proof using Type*.
  unfold dbscan_inner.
  destruct (sweep_invariant n core nbs neighb_bound neighb_length outer_inv
              (dbscan_fuel n)) with (todo := seq 0 n) (label_num := 0)
              (labels := replicate n NOISE)
    as (labels & num & Hsw & Hlen & _ & Hinv).
  - intros k labels i todo [Hrange Hclosed Hsupp Hconn Hdone] Hskip.
    split; try done.
    intros c Hcn Hc Hin. destruct (decide (c = i)) as [->|Hci].
    + destruct Hskip as [?|?]; [done|congruence].
    + apply Hdone; [done..|]. rewrite elem_of_cons. by intros [?|?].
  - intros k labels i todo Hk Hlen Hi Hinv Hnoise Hc.
    destruct (expand_invariant n core nbs neighb_bound neighb_length
                (inner_inv k i labels) k) with (fuel := dbscan_fuel n)
                (labels := labels) (stack := @nil nat) (i := i)
      as (labels' & Hex & Hlen' & Hfin).
    + unfold NOISE. lia.
    + intros. by apply visit_inner_inv.
    + split; [done|]. by apply Forall_singleton.
    + by eapply inner_inv_init.
    + unfold turns_left, dbscan_fuel. pose proof (unlabelled_le labels).
      cbn [length]. nia.
    + exists labels'. split; [done|]. split; [done|].
      by eapply inner_inv_final.
  - apply Forall_forall. intros v Hv%elem_of_seq. lia.
  - done.
  - apply length_replicate.
  - split.
    + apply Forall_replicate. by left.
    + intros c v _ _ Hl. exfalso. apply Hl. unfold label_of.
      destruct (replicate n NOISE !! c) eqn:Hr; [|done].
      by apply lookup_replicate in Hr as [-> _].
    + intros v Hl. exfalso. apply Hl. unfold label_of.
      destruct (replicate n NOISE !! v) eqn:Hr; [|done].
      by apply lookup_replicate in Hr as [-> _].
    + intros u v _ Hl. exfalso. apply Hl. unfold label_of.
      destruct (replicate n NOISE !! u) eqn:Hr; [|done].
      by apply lookup_replicate in Hr as [-> _].
    + intros c Hc _ Hin. exfalso. apply Hin, elem_of_seq. lia.
  - by exists labels, num.
Qed.

End labelling.

(** ** Clusters as sets of points *)

Lemma neighbour_count_Permutation eps X X' x :
  X ≡ₚ X' → neighbour_count eps X x = neighbour_count eps X' x.
Proof. intros HX. unfold neighbour_count. by rewrite HX. Qed.

Lemma reaches_Permutation eps X X' x y :
  X ≡ₚ X' → reaches eps X x y → reaches eps X' x y.
Proof.
  intros HX (Hx & Hy & Hc & Hw). unfold reaches, core_point.
  rewrite <- (neighbour_count_Permutation eps X X' x HX).
  by rewrite <- HX.
Qed.

Lemma same_cluster_Permutation eps X X' x y :
  X ≡ₚ X' → same_cluster eps X x y → same_cluster eps X' x y.
Proof.
  intros HX ([a Ha] & [b Hb] & Hxy). repeat split.
  - exists a. by eapply reaches_Permutation.
  - exists b. by eapply reaches_Permutation.
  - eapply (rtsc_congruence id); [|done].
    intros ??. by apply reaches_Permutation.
Qed.

Lemma neighborhood_count eps X x :
  length (neighborhood eps X x) = neighbour_count eps X x.
Proof.
  unfold neighborhood, neighbour_count, neighbour_index.
  assert (∀ pre, length (filter (λ j, from_option (within eps x) false
                                         ((pre ++ X) !! j))
                                (seq (length pre) (length X)))
                 = length (filter (λ y, within eps x y = true) X)) as Hgen.
  { induction X as [|y X IH]; intros pre; [done|].
    cbn [length seq].
    specialize (IH (pre ++ [y])).
    rewrite <- app_assoc, length_app in IH. cbn [app length] in IH.
    replace (length pre + 1)%nat with (S (length pre)) in IH by lia.
    destruct (within eps x y) eqn:Hw.
    - rewrite filter_cons_True.
      2:{ rewrite list_lookup_middle by done. simpl. by rewrite Hw. }
      rewrite (filter_cons_True (λ y, within eps x y = true)) by done.
      cbn [length]. by rewrite IH.
    - rewrite filter_cons_False.
      2:{ rewrite list_lookup_middle by done. simpl. rewrite Hw. by intros []. }
      rewrite (filter_cons_False (λ y, within eps x y = true)) by congruence.
      done. }
  apply (Hgen []).
Qed.

Section fit_points.

Variable eps : float.
Variable X : list point.

(** The radius query is reflexive and symmetric on the rows of [X]. *)
Hypothesis within_refl : ∀ x, x ∈ X → within eps x x = true.
Hypothesis within_sym :
  ∀ x y, x ∈ X → y ∈ X → within eps x y = within eps y x.

Local Abbreviation conn_index := (conn_index eps X).

Lemma elem_of_neighb i v :
  v ∈ neighb (neighborhoods eps X) i
  ↔ ∃ x y, X !! i = Some x ∧ X !! v = Some y ∧ within eps x y = true.
Proof using Type.
  rewrite neighb_neighborhoods. destruct (X !! i) as [x|]; simpl.
  - rewrite elem_of_neighborhood. split.
    + intros (y & ? & ?). by exists x, y.
    + intros (x' & y & [= <-] & ? & ?). by exists y.
  - rewrite elem_of_nil. split; [done|]. by intros (? & ? & ? & _).
Qed.

Lemma neighb_refl_points i :
  (i < length X)%nat → i ∈ neighb (neighborhoods eps X) i.
Proof using within_refl.
  intros Hi. apply elem_of_neighb.
  destruct (lookup_lt_is_Some_2 X i Hi) as [x Hx].
  exists x, x. repeat split; [done..|].
  apply within_refl. by eapply list_elem_of_lookup_2.
Qed.

Lemma neighb_sym_points i j :
  j ∈ neighb (neighborhoods eps X) i → i ∈ neighb (neighborhoods eps X) j.
Proof using within_sym.
  rewrite !elem_of_neighb. intros (x & y & Hx & Hy & Hw).
  exists y, x. repeat split; [done..|].
  rewrite within_sym; [done|by eapply list_elem_of_lookup_2..].
Qed.

Lemma neighb_NoDup_points i : NoDup (neighb (neighborhoods eps X) i).
Proof using Type.
  rewrite neighb_neighborhoods. destruct (X !! i); simpl.
  - apply neighborhood_NoDup.
  - constructor.
Qed.

Lemma is_core_length min_samples i :
  (0 < min_samples)%nat →
  is_core (core_samples min_samples (neighborhoods eps X)) i = true
  ↔ (min_samples ≤ length (neighb (neighborhoods eps X) i))%nat.
Proof using Type.
  intros Hms. unfold is_core, core_samples, neighb.
  rewrite list_lookup_fmap.
  destruct (neighborhoods eps X !! i) as [nb|]; simpl.
  - apply bool_decide_eq_true.
  - split; [done|lia].
Qed.

Lemma is_core_point i x :
  X !! i = Some x →
  is_core (core_samples 3 (neighborhoods eps X)) i = true ↔ core_point eps X x.
Proof using Type.
  intros Hx. rewrite is_core_length by lia.
  rewrite neighb_neighborhoods, Hx. simpl.
  by rewrite neighborhood_count.
Qed.

Lemma conn_index_step c v :
  is_core (core_samples 3 (neighborhoods eps X)) c = true →
  v ∈ neighb (neighborhoods eps X) c → conn_index c v.
Proof using Type.
  intros Hc (x & y & Hx & Hy & Hw)%elem_of_neighb.
  exists x, y. repeat split; [done..|]. apply rtsc_lr.
  repeat split; [by eapply list_elem_of_lookup_2..| |done].
  by eapply is_core_point.
Qed.

Lemma conn_index_refl i : (i < length X)%nat → conn_index i i.
Proof using Type.
  intros Hi. destruct (lookup_lt_is_Some_2 X i Hi) as [x Hx]. by exists x, x.
Qed.

Lemma conn_index_sym i j : conn_index i j → conn_index j i.
Proof using Type. intros (x & y & ? & ? & ?). by exists y, x. Qed.

Lemma conn_index_trans i j k : conn_index i j → conn_index j k → conn_index i k.
Proof using Type.
  intros (x & y & Hx & Hy & Hxy) (y' & z & Hy' & Hz & Hyz).
  assert (y' = y) as -> by congruence.
  exists x, z. repeat split; [done..|]. by etrans.
Qed.

Lemma reaches_clustered_l x y : reaches eps X x y → clustered eps X x.
Proof using within_refl.
  intros (Hx & _ & Hc & _). exists x. repeat split; [done..|].
  by apply within_refl.
Qed.

(** The labels that [dbscan_inner] returns for the rows of [X]: two rows
    carry the same cluster number exactly when their points are in the same
    cluster. *)
Lemma dbscan_inner_same_cluster :
  ∃ labels,
    dbscan_inner (core_samples 3 (neighborhoods eps X)) (neighborhoods eps X)
      (length X) = Some labels
    ∧ length labels = length X
    ∧ Forall label_ok labels
    ∧ ∀ i j x y, X !! i = Some x → X !! j = Some y →
        (label_of labels i = label_of labels j ∧ label_of labels i ≠ NOISE)
        ↔ same_cluster eps X x y.
Proof using Type*.
  destruct (dbscan_inner_outer_inv (length X)
              (core_samples 3 (neighborhoods eps X)) (neighborhoods eps X)
              (neighborhoods_bound eps X) (neighborhoods_length eps X)
              neighb_refl_points neighb_sym_points neighb_NoDup_points
              (λ i, is_core_length 3 i ltac:(lia))
              conn_index conn_index_refl conn_index_sym conn_index_trans
              conn_index_step)
    as (labels & num & Hdb & Hlen & [Hrange Hclosed Hsupp Hconn Hdone]).
  exists labels. split; [done|]. split; [done|]. split.
  { eapply Forall_impl; [done|]. intros c [?|?]; [by left|right; lia]. }
  assert (∀ a b ia ib, reaches eps X a b → X !! ia = Some a → X !! ib = Some b →
            label_of labels ib = label_of labels ia
            ∧ label_of labels ia ≠ NOISE) as Hreach.
  { intros a b ia ib (_ & _ & Hc & Hw) Ha Hb.
    assert (is_core (core_samples 3 (neighborhoods eps X)) ia = true) as Hcore
      by (by eapply is_core_point).
    assert (label_of labels ia ≠ NOISE) as Hl.
    { apply Hdone; [by eapply lookup_lt_Some|done|apply not_elem_of_nil]. }
    split; [|done]. apply Hclosed; [done| |done].
    apply elem_of_neighb. by exists a, b. }
  assert (∀ a i1 i2, clustered eps X a → X !! i1 = Some a → X !! i2 = Some a →
            label_of labels i1 = label_of labels i2
            ∧ label_of labels i1 ≠ NOISE) as Hdup.
  { intros a i1 i2 (c & Hca) H1 H2.
    pose proof Hca as (Hc & _).
    apply list_elem_of_lookup_1 in Hc as [ic Hic].
    destruct (Hreach c a ic i1 Hca Hic H1) as [E1 N1].
    destruct (Hreach c a ic i2 Hca Hic H2) as [E2 N2].
    split; congruence. }
  assert (∀ x y, rtsc (reaches eps X) x y → clustered eps X x →
            ∀ i j, X !! i = Some x → X !! j = Some y →
            label_of labels i = label_of labels j
            ∧ label_of labels i ≠ NOISE) as Hpath.
  { intros x y Hxy. induction Hxy as [x|x z y Hxz Hzy IH]; intros Hcx i j Hi Hj.
    - by apply (Hdup x).
    - assert (clustered eps X z ∧ ∃ iz, X !! iz = Some z
              ∧ label_of labels i = label_of labels iz
              ∧ label_of labels i ≠ NOISE) as (Hcz & iz & Hiz & E & N).
      { destruct Hxz as [Hxz|Hzx].
        - pose proof Hxz as (_ & Hz & _). split; [by exists x|].
          apply list_elem_of_lookup_1 in Hz as [iz Hiz]. exists iz.
          destruct (Hreach x z i iz Hxz Hi Hiz) as [E N]. by rewrite E.
        - pose proof Hzx as (Hz & _). split; [by eapply reaches_clustered_l|].
          apply list_elem_of_lookup_1 in Hz as [iz Hiz]. exists iz.
          destruct (Hreach z x iz i Hzx Hiz Hi) as [E N].
          split; [done|]. split; congruence. }
      destruct (IH Hcz iz j Hiz Hj) as [E' N']. split; congruence. }
  intros i j x y Hi Hj. split.
  - intros [E N].
    assert (∀ v z, X !! v = Some z → label_of labels v ≠ NOISE →
              clustered eps X z) as Hcl.
    { intros v z Hv Hl. destruct (Hsupp v Hl) as (c & Hc & Hvc & _).
      apply elem_of_neighb in Hvc as (xc & z' & Hxc & Hz' & Hw).
      assert (z' = z) as -> by congruence.
      exists xc. repeat split; [by eapply list_elem_of_lookup_2..| |done].
      by eapply is_core_point. }
    repeat split; [by eapply Hcl|eapply Hcl; [done|congruence]|].
    destruct (Hconn i j E N) as (x' & y' & Hx' & Hy' & Hxy). congruence.
  - intros (Hcx & _ & Hxy). by eapply Hpath.
Qed.

End fit_points.

(** ** Facts on [clusters] *)

Lemma default_eps_positive : (0 <? default_eps)%float = true.
Proof. reflexivity. Qed.

Lemma clusters_unfold uid :
  clusters uid
  = let! rows := execute uid in
    let! labels := DBSCAN_fit default_eps 3 rows in
    set_cl rows labels.
Proof. reflexivity. Qed.

(** [clusters] on a history for which [fit] delivers the labels. *)
Lemma clusters_fit uid rows labels :
  execute uid = Return rows → DBSCAN_fit default_eps 3 rows = Return labels →
  length labels = length rows →
  clusters uid = Return (zip_with add_cl rows labels).
Proof.
  intros Hex Hfit Hlen. rewrite clusters_unfold, Hex. cbn [bind].
  rewrite Hfit. cbn [bind]. unfold set_cl. by rewrite bool_decide_eq_true_2.
Qed.

Lemma zip_with_add_cl_coords X labels :
  length labels = length X → coords <$> zip_with add_cl X labels = X.
Proof.
  revert labels. induction X as [|[x y] X IH]; intros [|c labels] Hlen;
    simplify_eq/=; [done|]. by rewrite IH.
Qed.

Lemma zip_with_add_cl_labels X labels :
  length labels = length X → cl <$> zip_with add_cl X labels = labels.
Proof.
  revert labels. induction X as [|[x y] X IH]; intros [|c labels] Hlen;
    simplify_eq/=; [done|]. by rewrite IH.
Qed.

Lemma Forall_cl (P : Z → Prop) (data : frame) :
  Forall P (cl <$> data) → Forall (λ r, P (cl r)) data.
Proof. by rewrite Forall_fmap. Qed.

Lemma clusters_Return uid rows :
  execute uid = Return rows → rows ≠ [] → forallb finite_point rows = true →
  ∃ labels,
    DBSCAN_fit default_eps 3 rows = Return labels
    ∧ length labels = length rows ∧ Forall label_ok labels
    ∧ clusters uid = Return (zip_with add_cl rows labels).
Proof.
  intros Hex Hne Hfin.
  destruct (DBSCAN_fit_total default_eps 3 rows default_eps_positive Hne Hfin)
    as (labels & Hfit & Hlen & Hok).
  exists labels. repeat split; [done..|]. by apply clusters_fit.
Qed.

Lemma clusters_empty uid :
  execute uid = Return [] → clusters uid = Raise ValueError.
Proof. intros Hex. rewrite clusters_unfold. by rewrite Hex. Qed.

Lemma clusters_not_finite uid rows :
  execute uid = Return rows → forallb finite_point rows = false →
  clusters uid = Raise ValueError.
Proof.
  intros Hex Hfin. rewrite clusters_unfold, Hex. cbn [bind].
  unfold DBSCAN_fit, check_array. rewrite Hfin. by case_bool_decide.
Qed.

Lemma forallb_Permutation {A} (f : A → bool) (l l' : list A) :
  l ≡ₚ l' → forallb f l = forallb f l'.
Proof.
  intros Hl. apply eq_true_iff_eq. rewrite <- !Is_true_true, !forallb_True.
  by rewrite Hl.
Qed.

Lemma regions_no_cluster data :
  Forall (λ r, cl r < 0) data → regions data = [].
Proof.
  intros Hall. rewrite regions_spec.
  assert (Forall (λ k, k < 0) (group_keys data)) as Hkeys.
  { rewrite Forall_forall. intros k (r & Hr & <-)%elem_of_group_keys.
    by eapply Forall_forall in Hall. }
  induction Hkeys as [|k keys Hk Hkeys IH]; [done|].
  rewrite filter_cons_False by lia. done.
Qed.

(** ** The order of the history *)

Lemma existsb_regions p data :
  existsb (inside p) (regions data) = true
  ↔ ∃ k, 0 ≤ k ∧ k ∈ group_keys data
         ∧ hull_answer p (as_matrix (group_of data k)) = true.
Proof.
  rewrite existsb_exists, regions_spec. unfold hull_answer. split.
  - intros (h & Hh & Hin). apply list_elem_of_In in Hh.
    apply list_elem_of_omap in Hh as (k & Hk & Hr).
    apply list_elem_of_filter in Hk as [Hk0 Hk].
    exists k. repeat split; [done..|]. unfold region_of in Hr.
    destruct (hull_attempt _); by simplify_eq.
  - intros (k & Hk0 & Hk & Hans).
    destruct (hull_attempt (Some (as_matrix (group_of data k))))
      as [h|e] eqn:Hh; [|done].
    exists h. split; [|done]. apply list_elem_of_In, list_elem_of_omap.
    exists k. split; [by apply list_elem_of_filter|].
    unfold region_of. by rewrite Hh.
Qed.

Lemma group_matrix_flagged k X labels :
  as_matrix (group_of (zip_with add_cl X labels) k)
  = fst <$> filter (λ xf, xf.2 = true) (flagged k X labels).
Proof.
  unfold as_matrix, group_of, flagged. revert labels.
  induction X as [|[x y] X IH]; intros [|c labels]; try done.
  cbn [zip_with]. destruct (decide (c = k)) as [Hc|Hc].
  - rewrite filter_cons_True by done.
    rewrite (filter_cons_True (λ xf : point * bool, xf.2 = true))
      by (by apply bool_decide_eq_true_2).
    cbn [fmap list_fmap]. f_equal. apply IH.
  - rewrite filter_cons_False by done.
    rewrite (filter_cons_False (λ xf : point * bool, xf.2 = true))
      by (simpl; by rewrite bool_decide_eq_false_2).
    apply IH.
Qed.

Lemma label_of_Some labels i c : labels !! i = Some c → label_of labels i = c.
Proof. intros Hi. unfold label_of. by rewrite Hi. Qed.

(** Groups that hold the same rows, up to the order of the rows, have the
    same matrix up to the order of its rows. *)
Lemma group_matrix_Permutation X X' labels labels' k k' (σ : nat → nat) :
  length labels = length X → length labels' = length X' →
  length X = length X' →
  Inj (=) (=) σ → (∀ i, X !! i = X' !! σ i) →
  (∀ i, (i < length X)%nat →
        label_of labels i = k ↔ label_of labels' (σ i) = k') →
  as_matrix (group_of (zip_with add_cl X labels) k)
  ≡ₚ as_matrix (group_of (zip_with add_cl X' labels') k').
Proof.
  intros Hlen Hlen' HXX' Hinj Hσ Hlab. rewrite !group_matrix_flagged.
  apply fmap_Permutation, filter_Permutation.
  apply Permutation_inj. split.
  { unfold flagged. rewrite !length_zip_with. lia. }
  exists σ. split; [done|]. intros i. unfold flagged.
  rewrite !lookup_zip_with. rewrite <- Hσ.
  destruct (X !! i) as [x|] eqn:Hx; [|done]. cbn [mbind option_bind].
  assert (i < length X)%nat as Hi by (by eapply lookup_lt_Some).
  assert (σ i < length X')%nat as Hi'.
  { eapply lookup_lt_Some. by rewrite <- Hσ. }
  destruct (lookup_lt_is_Some_2 labels i) as [c Hc]; [lia|].
  destruct (lookup_lt_is_Some_2 labels' (σ i)) as [c' Hc']; [lia|].
  rewrite Hc, Hc'. cbn [mbind option_bind]. do 2 f_equal.
  apply bool_decide_ext.
  rewrite <- (label_of_Some _ _ _ Hc), <- (label_of_Some _ _ _ Hc').
  by apply Hlab.
Qed.

Lemma DBSCAN_fit_same_cluster eps X :
  (0 <? eps)%float = true →
  (∀ x, x ∈ X → within eps x x = true) →
  (∀ x y, x ∈ X → y ∈ X → within eps x y = within eps y x) →
  X ≠ [] → forallb finite_point X = true →
  ∃ labels, DBSCAN_fit eps 3 X = Return labels
            ∧ length labels = length X ∧ Forall label_ok labels
            ∧ labels_by_cluster eps X labels.
Proof.
  intros Heps Hrefl Hsym Hne Hfin.
  destruct (dbscan_inner_same_cluster eps X Hrefl Hsym)
    as (labels & Hdb & Hlen & Hok & Hcl).
  exists labels. split; [|done].
  unfold DBSCAN_fit, check_array.
  rewrite bool_decide_eq_false_2, Hfin by done. cbn [bind].
  by rewrite Heps, Hdb.
Qed.

(** The clusters of a history and of a reordering of it: the matrix of each
    cluster of the one is, up to the order of its rows, the matrix of a
    cluster of the other. *)
Lemma cluster_matrix_transfer eps X X' labels labels' k :
  X ≡ₚ X' →
  length labels = length X → length labels' = length X' →
  Forall label_ok labels' →
  labels_by_cluster eps X labels → labels_by_cluster eps X' labels' →
  0 ≤ k → k ∈ group_keys (zip_with add_cl X labels) →
  ∃ k', 0 ≤ k' ∧ k' ∈ group_keys (zip_with add_cl X' labels')
        ∧ as_matrix (group_of (zip_with add_cl X labels) k)
          ≡ₚ as_matrix (group_of (zip_with add_cl X' labels') k').
Proof.
  intros HX Hlen Hlen' Hok' Hcl Hcl' Hk0 Hk.
  pose proof HX as [HXX' (σ & Hinj & Hσ)]%Permutation_inj.
  apply elem_of_group_keys in Hk as (r & Hr & Hrk).
  apply list_elem_of_lookup_1 in Hr as [i0 Hi0].
  apply lookup_zip_with_Some in Hi0 as (x0 & c0 & -> & Hx0 & Hc0).
  simpl in Hrk. subst c0.
  pose proof (label_of_Some _ _ _ Hc0) as Hl0.
  assert (X' !! σ i0 = Some x0) as Hx0' by (by rewrite <- Hσ).
  set (k' := label_of labels' (σ i0)).
  assert (same_cluster eps X' x0 x0) as Hsc0.
  { apply (same_cluster_Permutation eps X X'); [done|].
    apply (Hcl i0 i0); [done..|]. split; [done|]. rewrite Hl0.
    unfold NOISE. lia. }
  assert (k' ≠ NOISE) as Hk'N.
  { by apply (Hcl' (σ i0) (σ i0) x0 x0 Hx0' Hx0') in Hsc0 as [_ ?]. }
  assert (0 ≤ k') as Hk'0.
  { destruct (label_of_range label_ok labels' (σ i0) Hok' Hk'N) as [?|?]; done. }
  assert (∀ i, (i < length X)%nat →
               label_of labels i = k ↔ label_of labels' (σ i) = k') as Hlab.
  { intros i Hi. destruct (lookup_lt_is_Some_2 X i Hi) as [x Hx].
    assert (X' !! σ i = Some x) as Hx' by (by rewrite <- Hσ).
    split.
    - intros Hik.
      assert (same_cluster eps X x x0) as Hsc.
      { apply (Hcl i i0); [done..|]. rewrite Hik, Hl0. split; [done|].
        unfold NOISE. lia. }
      apply (same_cluster_Permutation eps X X') in Hsc; [|done].
      by apply (Hcl' (σ i) (σ i0)) in Hsc as [? _].
    - intros Hik.
      assert (same_cluster eps X' x x0) as Hsc.
      { apply (Hcl' (σ i) (σ i0)); [done..|]. by rewrite Hik. }
      apply (same_cluster_Permutation eps X' X) in Hsc; [|done].
      apply (Hcl i i0) in Hsc as [? _]; [|done..]. congruence. }
  exists k'. split; [done|]. split.
  - apply elem_of_group_keys. exists (add_cl x0 k'). split; [|done].
    apply (list_elem_of_lookup_2 _ (σ i0)), lookup_zip_with_Some.
    exists x0, k'. split; [done|]. split; [done|].
    destruct (lookup_lt_is_Some_2 labels' (σ i0)) as [c' Hc'].
    { rewrite Hlen'. by eapply lookup_lt_Some. }
    by rewrite Hc', <- (label_of_Some _ _ _ Hc').
  - by eapply group_matrix_Permutation.
Qed.

(** The regions of a history and of a reordering of it answer alike, when
    the answer for each cluster of the history is the same for its rows in
    another order. *)
Lemma regions_answer_Permutation eps X X' labels labels' p :
  X ≡ₚ X' →
  length labels = length X → length labels' = length X' →
  Forall label_ok labels → Forall label_ok labels' →
  labels_by_cluster eps X labels → labels_by_cluster eps X' labels' →
  (∀ k pts', 0 ≤ k →
     as_matrix (group_of (zip_with add_cl X labels) k) ≡ₚ pts' →
     hull_answer p (as_matrix (group_of (zip_with add_cl X labels) k))
     = hull_answer p pts') →
  existsb (inside p) (regions (zip_with add_cl X labels))
  = existsb (inside p) (regions (zip_with add_cl X' labels')).
Proof.
  intros HX Hlen Hlen' Hok Hok' Hcl Hcl' Hgeo.
  apply eq_true_iff_eq. rewrite !existsb_regions. split.
  - intros (k & Hk0 & Hk & Hans).
    destruct (cluster_matrix_transfer eps X X' labels labels' k)
      as (k' & Hk'0 & Hk' & Hperm); [done..|].
    exists k'. split; [done|]. split; [done|].
    by rewrite <- (Hgeo k _ Hk0 Hperm).
  - intros (k' & Hk'0 & Hk' & Hans).
    destruct (cluster_matrix_transfer eps X' X labels' labels k')
      as (k & Hk0 & Hk & Hperm); [done..|].
    exists k. split; [done|]. split; [done|].
    symmetry in Hperm. by rewrite (Hgeo k _ Hk0 Hperm).
Qed.

(** What [in_hull] answers for a region. *)
Lemma inside_true p h :
  inside p h = true
  ↔ ∃ hull_vertices t s,
      h = NdArray hull_vertices ∧ Delaunay hull_vertices = Return t
      ∧ find_simplex t p = Return s ∧ 0 ≤ s.
Proof.
  unfold inside, in_hull. destruct h as [hv|t]; cbn [try_except].
  - destruct (Delaunay hv) as [t|e] eqn:Ht; cbn [bind try_except].
    + destruct (find_simplex t p) as [s|e] eqn:Hs; cbn [bind try_except].
      * rewrite bool_decide_eq_true. split.
        -- intros Hs0. by exists hv, t, s.
        -- intros (hv' & t' & s' & [= <-] & Ht' & Hs' & Hs0).
           rewrite Ht in Ht'. injection Ht' as <-.
           rewrite Hs in Hs'. by injection Hs' as <-.
      * split; [done|].
        intros (hv' & t' & s' & [= <-] & Ht' & Hs' & _).
        rewrite Ht in Ht'. injection Ht' as <-. congruence.
    + split; [done|]. intros (hv' & t' & s' & [= <-] & Ht' & _). congruence.
  - split; [done|]. by intros (? & ? & ? & ? & _).
Qed.


(** C2, as the code has it: a history of one or two points with finite
    coordinates has no core sample, so every row is labelled noise,
    [regions] is empty and [location_alert] returns [true] for every query
    point.  A history with no point at all does not pass the input check of
    the estimator: [location_alert] raises [ValueError]. *)
Theorem location_alert_insufficient_history uid rows lon lat :
  execute uid = Return rows → (length rows < 3)%nat →
  (rows = [] → location_alert uid lon lat = Raise ValueError)
  ∧ (rows ≠ [] → forallb finite_point rows = true →
     ∃ data, clusters uid = Return data
             ∧ coords <$> data = rows
             ∧ Forall (λ r, cl r = NOISE) data
             ∧ regions data = []
             ∧ location_alert uid lon lat = Return true).
Proof.
  intros Hex Hn. split.
  - intros ->. unfold location_alert. by rewrite clusters_empty.
  - intros Hne Hfin.
    pose proof (DBSCAN_fit_small default_eps 3 rows default_eps_positive
                  Hne Hfin Hn) as Hfit.
    assert (clusters uid
            = Return (zip_with add_cl rows (replicate (length rows) NOISE)))
      as Hc.
    { apply clusters_fit; [done..|]. apply length_replicate. }
    eexists. split; [exact Hc|].
    assert (Forall (λ r, cl r = NOISE)
              (zip_with add_cl rows (replicate (length rows) NOISE))) as Hall.
    { apply (Forall_cl (λ c, c = NOISE)).
      rewrite zip_with_add_cl_labels by apply length_replicate.
      by apply Forall_replicate. }
    assert (regions (zip_with add_cl rows (replicate (length rows) NOISE)) = [])
      as Hreg.
    { apply regions_no_cluster. eapply Forall_impl; [exact Hall|].
      intros r ->. done. }
    repeat split; [|done|done|].
    + apply zip_with_add_cl_coords, length_replicate.
    + rewrite (location_alert_spec _ _ _ _ Hc), Hreg. done.
Qed.

(** C3, as the code has it: for a history that is not empty and whose
    coordinates are finite, [clusters] returns the rows of the history, in
    their order, each with exactly one label, a cluster number [>= 0] or the
    noise label.  For an empty history the input check of the estimator
    raises [ValueError] and no labelling is returned. *)
Theorem clusters_labels_every_point uid rows :
  execute uid = Return rows →
  (rows = [] → clusters uid = Raise ValueError)
  ∧ (rows ≠ [] → forallb finite_point rows = true →
     ∃ labels data,
       DBSCAN_fit default_eps 3 rows = Return labels
       ∧ clusters uid = Return data
       ∧ length data = length rows
       ∧ coords <$> data = rows
       ∧ cl <$> data = labels
       ∧ Forall (λ r, cl r = NOISE ∨ 0 ≤ cl r) data).
Proof.
  intros Hex. split.
  - intros ->. by apply clusters_empty.
  - intros Hne Hfin.
    destruct (clusters_Return uid rows Hex Hne Hfin)
      as (labels & Hfit & Hlen & Hok & Hc).
    exists labels, (zip_with add_cl rows labels).
    repeat split; [done|done|..].
    + rewrite length_zip_with. lia.
    + by apply zip_with_add_cl_coords.
    + by apply zip_with_add_cl_labels.
    + apply (Forall_cl label_ok). by rewrite zip_with_add_cl_labels.
Qed.

(** C4, as the code has it: [location_alert] never looks at whether the
    query coordinates are finite.  It first clusters the history; an error of
    that step is the only error it can raise, and it is the same for every
    query point; otherwise every query point, finite or not, gets a verdict.
    Only a history with a coordinate that is not finite is refused, by the
    estimator's input check. *)
Theorem location_alert_no_query_validation uid lon lat :
  match clusters uid with
  | Return data => ∃ verdict, location_alert uid lon lat = Return verdict
  | Raise e => location_alert uid lon lat = Raise e
  end
  ∧ ∀ rows, execute uid = Return rows → forallb finite_point rows = false →
      location_alert uid lon lat = Raise ValueError.
Proof.
  split.
  - destruct (clusters uid) as [data|e] eqn:Hc.
    + rewrite (location_alert_spec _ _ _ _ Hc). by eexists.
    + unfold location_alert. by rewrite Hc.
  - intros rows Hrows Hfin. unfold location_alert.
    by rewrite (clusters_not_finite uid rows).
Qed.

(** C5: every region returned by [regions] is built from the hull of the
    rows of one cluster with a label [>= 0]: its vertices are rows of the
    matrix of that cluster, picked by the indices the hull constructor
    returned, so each vertex is a point of a row that carries that one label,
    which is not the noise label. *)
Theorem regions_hull_of_one_cluster data :
  Forall (λ h, ∃ k vertices hull_vertices,
            0 ≤ k ∧ k ≠ NOISE
            ∧ ConvexHull (as_matrix (group_of data k)) = Return vertices
            ∧ Forall2 (λ i v, as_matrix (group_of data k) !! i = Some v)
                      vertices hull_vertices
            ∧ h = NdArray hull_vertices
            ∧ Forall (λ v, ∃ r, r ∈ data ∧ cl r = k ∧ coords r = v) hull_vertices)
         (regions data).
Proof.
  rewrite regions_spec, Forall_forall. intros h Hh.
  apply list_elem_of_omap in Hh as (k & Hk & Hr).
  apply list_elem_of_filter in Hk as [Hk0 _].
  apply region_of_Some in Hr as (vs & hv & Hch & Hm & ->).
  apply mapM_Some in Hm.
  exists k, vs, hv. repeat split; [done|unfold NOISE; lia|done|done|].
  rewrite Forall_forall. intros v Hv. clear Hch.
  induction Hm as [|i v' vs hv Hiv Hm IH]; [by apply elem_of_nil in Hv|].
  apply elem_of_cons in Hv as [->|Hv]; [|by apply IH].
  apply list_elem_of_lookup_2 in Hiv. unfold as_matrix in Hiv.
  apply list_elem_of_fmap in Hiv as (r & -> & Hr).
  apply list_elem_of_filter in Hr as [Hr1 Hr2]. by exists r.
Qed.

(** C6, as the code has it: a cluster for which the hull constructor raises
    contributes no region, and no error leaves [regions]: every region of
    the result is the hull of another cluster, the result is the one
    obtained from the frame without the rows of that cluster, and every
    other cluster with a label [>= 0] whose hull is built has its region in
    the result.  Whether the constructor raises is up to the library: a
    cluster whose points are on one line or coincide contributes a region
    when the constructor returns for it. *)
Theorem regions_drops_degenerate_cluster data k e :
  ConvexHull (as_matrix (group_of data k)) = Raise e →
  Forall (λ h, ∃ k' vertices hull_vertices,
            0 ≤ k' ∧ k' ≠ k
            ∧ ConvexHull (as_matrix (group_of data k')) = Return vertices
            ∧ mapM (λ i, as_matrix (group_of data k') !! i) vertices
              = Some hull_vertices
            ∧ h = NdArray hull_vertices)
         (regions data)
  ∧ regions data = regions (filter (λ r, cl r ≠ k) data)
  ∧ ∀ k' vertices hull_vertices,
      0 ≤ k' → k' ∈ cl <$> data →
      ConvexHull (as_matrix (group_of data k')) = Return vertices →
      mapM (λ i, as_matrix (group_of data k') !! i) vertices
      = Some hull_vertices →
      NdArray hull_vertices ∈ regions data.
Proof.
  intros He. split; [|split].
  - rewrite regions_spec, Forall_forall. intros h Hh.
    apply list_elem_of_omap in Hh as (k' & Hk' & Hr).
    apply list_elem_of_filter in Hk' as [Hk'0 _].
    apply region_of_Some in Hr as (vs & hv & Hch & Hm & ->).
    exists k', vs, hv. repeat split; [done| |done..].
    intros ->. congruence.
  - rewrite regions_without; [done|]. by eapply region_of_degenerate.
  - intros k' vs hv Hk'0 Hin Hch Hm. rewrite regions_spec.
    apply list_elem_of_omap. exists k'. split.
    + apply list_elem_of_filter. split; [done|].
      apply elem_of_group_keys.
      apply list_elem_of_fmap in Hin as (r & -> & Hr). by exists r.
    + apply region_of_Some. by exists vs, hv.
Qed.

(** C7: when the triangulation of a region fails, [in_hull] answers [false]
    for that region instead of raising. *)
Theorem in_hull_triangulation_failure p vertices e :
  Delaunay vertices = Raise e → in_hull p (NdArray vertices) = Return false.
Proof. intros He. unfold in_hull. by rewrite He. Qed.

(** C10: every element of the list that [regions] returns is a plain array
    of vertices, never a triangulation object, so on each of them [in_hull]
    assigns [res] and returns a boolean, and the loop of [location_alert]
    over these elements ends with a boolean. *)
Theorem in_hull_result_always_bound data p :
  Forall (λ h, (∃ vertices, h = NdArray vertices)
               ∧ (∀ t, h ≠ DelaunayObj t)
               ∧ in_hull p h ≠ Raise UnboundLocalError
               ∧ ∃ res, in_hull p h = Return res)
         (regions data)
  ∧ ∃ res, alert_loop p (regions data) (seq 0 (length (regions data))) false
           = Return res.
Proof.
  split.
  - eapply Forall_impl; [apply regions_ndarray|].
    intros h [vs ->]. repeat split; [by exists vs|done|done|by eexists].
  - pose proof (alert_loop_spec p [] (regions data) false
                  (regions_ndarray data)) as Hl.
    cbn [app length] in Hl. rewrite Hl. by eexists.
Qed.

End Contract.

(** ** Runs of the service on the stand-ins *)

(** Four check-ins at the corners of a square: a place inside the square is
    familiar, a place far away is not. *)
Example location_alert_44_inside :
  location_alert_standin 44 0.00003 0.00003 = Return false.
Proof. vm_compute. reflexivity. Qed.

Example location_alert_44_outside :
  location_alert_standin 44 10 10 = Return true.
Proof. vm_compute. reflexivity. Qed.

(** Three check-ins: the region is a triangle, and the triangulation of
    three vertices is refused, so that every place gives an alert. *)
Example location_alert_22_triangle :
  regions_standin data_22
  = [NdArray [(0, 0); (0.0001, 0); (0, 0.0001)]%float]
  ∧ location_alert_standin 22 0.00003 0.00003 = Return true
  ∧ location_alert_standin 22 10 10 = Return true.
Proof. repeat split; vm_compute; reflexivity. Qed.

Example regions_two_clusters :
  regions_standin data_two_clusters = [NdArray [(0, 0); (1, 0); (0, 1)]%float].
Proof. vm_compute. reflexivity. Qed.



(** A user with no history: the estimator refuses the empty matrix. *)
Lemma location_alert_empty_history_raises :
  Standin.execute 0 = Return []
  ∧ location_alert_standin 0 (-73.99) 40.75 = Raise ValueError.
Proof. split; vm_compute; reflexivity. Qed.

Lemma location_alert_insufficient_history_witness :
  Standin.execute 1 = Return [(-73.99, 40.75)%float]
  ∧ ∃ data, clusters_standin 1 = Return data
            ∧ coords <$> data = [(-73.99, 40.75)%float]
            ∧ Forall (λ r, cl r = NOISE) data
            ∧ regions_standin data = []
            ∧ location_alert_standin 1 0 0 = Return true.
Proof.
  split; [vm_compute; reflexivity|].
  apply (location_alert_insufficient_history
           (lib := Standin.lib) 1 [(-73.99, 40.75)%float] 0%float 0%float).
  - vm_compute; reflexivity.
  - simpl; lia.
  - discriminate.
  - vm_compute; reflexivity.
Defined.

(** An empty history: [clusters] raises instead of returning an empty
    labelling. *)
Lemma clusters_empty_history_raises :
  Standin.execute 0 = Return []
  ∧ DBSCAN_fit (lib := Standin.lib) default_eps 3 [] = Raise ValueError
  ∧ clusters_standin 0 = Raise ValueError.
Proof. repeat split; vm_compute; reflexivity. Qed.

Lemma clusters_labels_every_point_witness :
  Standin.execute 22 = Return [(0, 0); (0, 0.0001); (0.0001, 0)]%float
  ∧ ∃ labels data,
      DBSCAN_fit (lib := Standin.lib) default_eps 3
        [(0, 0); (0, 0.0001); (0.0001, 0)]%float = Return labels
      ∧ clusters_standin 22 = Return data
      ∧ length data = 3%nat
      ∧ coords <$> data = [(0, 0); (0, 0.0001); (0.0001, 0)]%float
      ∧ cl <$> data = labels
      ∧ Forall (λ r, cl r = NOISE ∨ 0 ≤ cl r) data.
Proof.
  split; [vm_compute; reflexivity|].
  apply (clusters_labels_every_point (lib := Standin.lib) 22
           [(0, 0); (0, 0.0001); (0.0001, 0)]%float).
  - vm_compute; reflexivity.
  - discriminate.
  - vm_compute; reflexivity.
Defined.

(** A query point that is not finite is answered with a verdict, both for a
    user with a region and for a user without. *)
Lemma location_alert_answers_non_finite_query :
  PrimFloat.is_finite nan = false
  ∧ PrimFloat.is_finite infinity = false
  ∧ location_alert_standin 22 nan 40.75 = Return true
  ∧ location_alert_standin 22 0.00003 infinity = Return true
  ∧ location_alert_standin 1 nan nan = Return true.
Proof. repeat split; vm_compute; reflexivity. Qed.

Lemma regions_drops_degenerate_cluster_witness :
  Standin.ConvexHull (as_matrix (group_of data_two_clusters 0))
  = Raise QhullError
  ∧ Forall (λ h, ∃ k' vertices hull_vertices,
              0 ≤ k' ∧ k' ≠ 0
              ∧ Standin.ConvexHull (as_matrix (group_of data_two_clusters k'))
                = Return vertices
              ∧ mapM (λ i, as_matrix (group_of data_two_clusters k') !! i)
                  vertices = Some hull_vertices
              ∧ h = NdArray hull_vertices)
           (regions_standin data_two_clusters)
  ∧ regions_standin data_two_clusters
    = regions_standin (filter (λ r, cl r ≠ 0) data_two_clusters)
  ∧ ∀ k' vertices hull_vertices,
      0 ≤ k' → k' ∈ cl <$> data_two_clusters →
      Standin.ConvexHull (as_matrix (group_of data_two_clusters k'))
      = Return vertices →
      mapM (λ i, as_matrix (group_of data_two_clusters k') !! i) vertices
      = Some hull_vertices →
      NdArray hull_vertices ∈ regions_standin data_two_clusters.
Proof.
  split; [vm_compute; reflexivity|].
  apply (regions_drops_degenerate_cluster (lib := Standin.lib)
           data_two_clusters 0 QhullError).
  vm_compute; reflexivity.
Defined.

(** Clusters that are not dropped: three check-ins on one line, and three
    check-ins at one place.  The hull constructor returns for both, and
    each contributes a region. *)
Lemma regions_keeps_flat_cluster :
  cross (0, 0)%float (1, 1)%float (2, 2)%float = 0%float
  ∧ Standin.ConvexHull [(0, 0); (1, 1); (2, 2)]%float = Return [0; 1; 2]%nat
  ∧ regions_standin [Row 0 0 0; Row 1 1 0; Row 2 2 0]%float
    = [NdArray [(0, 0); (1, 1); (2, 2)]%float]
  ∧ regions_standin [Row 5 5 0; Row 5 5 0; Row 5 5 0]%float
    = [NdArray [(5, 5); (5, 5); (5, 5)]%float].
Proof. repeat split; vm_compute; reflexivity. Qed.

Lemma in_hull_triangulation_failure_witness :
  Standin.Delaunay [(0, 0); (1, 1)]%float = Raise QhullError
  ∧ in_hull_standin (0.5, 0.5)%float (NdArray [(0, 0); (1, 1)]%float)
    = Return false.
Proof.
  split; [vm_compute; reflexivity|].
  apply (in_hull_triangulation_failure (lib := Standin.lib)
           (0.5, 0.5)%float [(0, 0); (1, 1)]%float QhullError).
  vm_compute; reflexivity.
Defined.

(** The same check-ins in the opposite order: the rows of the frame carry
    other labels. *)
Example clusters_30_31 :
  cl <$> try_except (clusters_standin 30) [] = [0; 0; 0; 1; 1; 1; -1]
  ∧ cl <$> try_except (clusters_standin 31) [] = [-1; 0; 0; 0; 1; 1; 1].
Proof. split; vm_compute; reflexivity. Qed.


(** * More of the service *)

Section Regions.

Context {lib : Collaborators}.

(** Keeping the rows whose label satisfies [P] keeps the labels that satisfy
    [P], in their order. *)
Lemma group_keys_filter (P : Z → Prop) `{∀ k, Decision (P k)} data :
  group_keys (filter (λ r, P (cl r)) data) = filter P (group_keys data).
Proof using Type.
  apply (StronglySorted_unique Z.le).
  - apply group_keys_sorted.
  - apply StronglySorted_filter_Z, group_keys_sorted.
  - apply NoDup_Permutation.
    + apply group_keys_NoDup.
    + apply NoDup_filter, group_keys_NoDup.
    + intros k. rewrite list_elem_of_filter, !elem_of_group_keys.
      setoid_rewrite list_elem_of_filter. split.
      * intros (r & [HP Hr] & <-). split; [done|by exists r].
      * intros (HP & r & Hr & <-). by exists r.
Qed.

Lemma group_of_filter (P : Z → Prop) `{∀ k, Decision (P k)} data k :
  P k → group_of (filter (λ r, P (cl r)) data) k = group_of data k.
Proof using Type.
  intros HP. unfold group_of.
  induction data as [|r data IH]; [done|].
  destruct (decide (cl r = k)) as [Hr|Hr].
  - rewrite (filter_cons_True (λ r, P (cl r))) by (by rewrite Hr).
    do 2 (rewrite (filter_cons_True (λ r, cl r = k)) by done). by f_equal.
  - rewrite (filter_cons_False (λ r, cl r = k) r data) by done. rewrite <- IH.
    destruct (decide (P (cl r))).
    + rewrite (filter_cons_True (λ r, P (cl r))) by done.
      by rewrite filter_cons_False.
    + by rewrite (filter_cons_False (λ r, P (cl r))).
Qed.

(** X1: [regions] returns the regions in the increasing order of the labels
    of their clusters, at most one for each label [>= 0] of the frame: it is
    the list of the hulls that can be built, taken over the sorted labels
    without repetition. *)
Theorem regions_in_label_order data :
  regions data = omap (region_of data) (filter (λ k, 0 ≤ k) (group_keys data))
  ∧ StronglySorted Z.lt (group_keys data)
  ∧ ∀ k, k ∈ group_keys data ↔ ∃ r, r ∈ data ∧ cl r = k.
Proof.
  split; [apply regions_spec|]. split; [|apply elem_of_group_keys].
  - pose proof (group_keys_sorted data) as Hs.
    pose proof (group_keys_NoDup data) as Hn.
    induction Hs as [|k keys Hs IH Hk]; [constructor|].
    apply NoDup_cons in Hn as [Hk' Hn]. constructor; [by apply IH|].
    rewrite Forall_forall in Hk |- *. intros k' Hin.
    specialize (Hk k' Hin). assert (k ≠ k') by (by intros ->). lia.
Qed.

(** X2: the rows labelled as noise have no part in [regions]: the result is
    the one for the frame without the rows of negative label. *)
Theorem regions_ignores_noise data :
  regions (filter (λ r, 0 ≤ cl r) data) = regions data.
Proof.
  rewrite !regions_spec, (group_keys_filter (λ k, 0 ≤ k)).
  induction (group_keys data) as [|k keys IH]; [done|].
  destruct (decide (0 ≤ k)).
  - do 2 (rewrite (filter_cons_True (λ k, 0 ≤ k) k) by done).
    cbn [omap list_omap]. rewrite IH. unfold region_of at 1 3.
    by rewrite (group_of_filter (λ k, 0 ≤ k)).
  - by rewrite !(filter_cons_False (λ k, 0 ≤ k) k).
Qed.

End Regions.

Section Alert.

Context {lib : Collaborators}.

(** X3: a location is familiar, that is [location_alert] returns [false],
    exactly when some cluster with a label [>= 0] of the clustered history
    has a hull whose vertices can be triangulated and the lookup of the
    query point in that triangulation gives a simplex index [>= 0]. *)
Theorem location_alert_familiar uid lon lat data :
  clusters uid = Return data →
  location_alert uid lon lat = Return false
  ↔ ∃ k vertices hull_vertices t s,
      0 ≤ k ∧ k ∈ cl <$> data
      ∧ ConvexHull (as_matrix (group_of data k)) = Return vertices
      ∧ mapM (λ i, as_matrix (group_of data k) !! i) vertices
        = Some hull_vertices
      ∧ Delaunay hull_vertices = Return t
      ∧ find_simplex t (lon, lat) = Return s ∧ 0 ≤ s.
Proof.
  intros Hc. rewrite (location_alert_spec _ _ _ _ Hc). split.
  - intros [= Hv]. apply negb_false_iff, existsb_exists in Hv as (h & Hh & Hin).
    apply list_elem_of_In in Hh. rewrite regions_spec in Hh.
    apply list_elem_of_omap in Hh as (k & Hk & Hr).
    apply list_elem_of_filter in Hk as [Hk0 Hk].
    apply region_of_Some in Hr as (vs & hv & Hch & Hm & ->).
    apply inside_true in Hin as (hv' & t & s & [= <-] & Ht & Hs & Hs0).
    exists k, vs, hv, t, s. repeat split; try done.
    apply elem_of_group_keys in Hk as (r & Hr & <-).
    apply list_elem_of_fmap. by exists r.
  - intros (k & vs & hv & t & s & Hk0 & Hk & Hch & Hm & Ht & Hs & Hs0).
    f_equal. apply negb_false_iff, existsb_exists.
    exists (NdArray hv). split.
    + apply list_elem_of_In. rewrite regions_spec. apply list_elem_of_omap.
      exists k. split.
      * apply list_elem_of_filter. split; [done|].
        apply list_elem_of_fmap in Hk as (r & -> & Hr).
        apply elem_of_group_keys. by exists r.
      * apply region_of_Some. by exists vs, hv.
    + apply inside_true. by exists hv, t, s.
Qed.

(** X4: the order in which the regions are tested does not matter, and the
    loop of [location_alert] never fails on regions given as arrays of
    vertices: on a list of such regions and on any reordering of it the loop
    returns, with the same result, which is [true] exactly when [in_hull]
    answers [True] for one of the regions. *)
Theorem alert_loop_order p hulls hulls' :
  Forall is_ndarray hulls → hulls ≡ₚ hulls' →
  ∃ res, alert_loop p hulls (seq 0 (length hulls)) false = Return res
         ∧ alert_loop p hulls' (seq 0 (length hulls')) false = Return res
         ∧ (res = true ↔ ∃ h, h ∈ hulls ∧ in_hull p h = Return true).
Proof.
  intros Hnd Hperm.
  assert (Forall is_ndarray hulls') as Hnd' by (by rewrite <- Hperm).
  pose proof (alert_loop_spec p [] hulls false Hnd) as Hl.
  pose proof (alert_loop_spec p [] hulls' false Hnd') as Hl'.
  cbn [app length orb] in Hl, Hl'.
  exists (existsb (inside p) hulls). split; [done|]. split.
  - rewrite Hl'. f_equal.
    apply eq_true_iff_eq. rewrite !existsb_exists.
    split; intros (h & Hh & Hin); exists h; split; try done.
    + by rewrite <- list_elem_of_In, Hperm, list_elem_of_In.
    + by rewrite <- list_elem_of_In, <- Hperm, list_elem_of_In.
  - rewrite Forall_forall in Hnd. rewrite existsb_exists. split.
    + intros (h & Hh%list_elem_of_In & Hin). exists h. split; [done|].
      rewrite in_hull_ndarray by auto. by f_equal.
    + intros (h & Hh & Hin). exists h. split; [by apply list_elem_of_In|].
      rewrite in_hull_ndarray in Hin by auto. congruence.
Qed.

(** X5: the ways in which [clusters] and [location_alert] fail.  [clusters]
    raises exactly when the event store fails, with the error of the store,
    or when the history is empty or has a coordinate that is not finite,
    with [ValueError]; [location_alert] raises exactly what [clusters]
    raises, whatever the query point. *)
Theorem clusters_raises_iff uid e lon lat :
  (clusters uid = Raise e
   ↔ execute uid = Raise e
     ∨ ∃ rows, execute uid = Return rows
               ∧ (rows = [] ∨ forallb finite_point rows = false)
               ∧ e = ValueError)
  ∧ (location_alert uid lon lat = Raise e ↔ clusters uid = Raise e).
Proof.
  split.
  - destruct (execute uid) as [rows|e'] eqn:Hex.
    + destruct (decide (rows = [])) as [->|Hne].
      { rewrite (clusters_empty uid Hex). split.
        - intros [= <-]. right. exists []. auto.
        - intros [?|(rows & _ & _ & ->)]; done. }
      destruct (forallb finite_point rows) eqn:Hfin.
      * destruct (clusters_Return uid rows Hex Hne Hfin)
          as (labels & _ & _ & _ & ->).
        split; [done|].
        intros [?|(rows' & [= <-] & [?|?] & _)]; congruence.
      * rewrite (clusters_not_finite uid rows Hex Hfin). split.
        -- intros [= <-]. right. exists rows. auto.
        -- intros [?|(rows' & _ & _ & ->)]; done.
    + assert (clusters uid = Raise e') as -> by (by rewrite clusters_unfold, Hex).
      split.
      * intros [= <-]. by left.
      * intros [[= <-]|(rows & ? & _)]; done.
  - destruct (clusters uid) as [data|e'] eqn:Hc.
    + rewrite (location_alert_spec _ _ _ _ Hc). split; intros [=].
    + assert (location_alert uid lon lat = Raise e') as ->
        by (unfold location_alert; by rewrite Hc).
      split; intros [= <-]; done.
Qed.

End Alert.

Section Clusters.

Context {lib : Collaborators}.

Lemma DBSCAN_fit_inner eps min_samples X labels :
  (0 <? eps)%float = true → X ≠ [] → forallb finite_point X = true →
  dbscan_inner (core_samples min_samples (neighborhoods eps X))
    (neighborhoods eps X) (length X) = Some labels →
  DBSCAN_fit eps min_samples X = Return labels.
Proof.
  intros Heps Hne Hfin Hdb. unfold DBSCAN_fit, check_array.
  rewrite bool_decide_eq_false_2, Hfin by done. cbn [bind].
  by rewrite Heps, Hdb.
Qed.

(** The outcome of the service when the estimator labels every row as
    noise. *)
Lemma all_noise_alert uid rows lon lat :
  execute uid = Return rows →
  DBSCAN_fit default_eps 3 rows = Return (replicate (length rows) NOISE) →
  ∃ data, clusters uid = Return data
          ∧ coords <$> data = rows
          ∧ Forall (λ r, cl r = NOISE) data
          ∧ regions data = []
          ∧ location_alert uid lon lat = Return true.
Proof.
  intros Hex Hfit.
  assert (clusters uid
          = Return (zip_with add_cl rows (replicate (length rows) NOISE)))
    as Hc.
  { apply clusters_fit; [done..|]. apply length_replicate. }
  eexists. split; [exact Hc|].
  assert (Forall (λ r, cl r = NOISE)
            (zip_with add_cl rows (replicate (length rows) NOISE))) as Hall.
  { apply (Forall_cl (λ c, c = NOISE)).
    rewrite zip_with_add_cl_labels by apply length_replicate.
    by apply Forall_replicate. }
  assert (regions (zip_with add_cl rows (replicate (length rows) NOISE)) = [])
    as Hreg.
  { apply regions_no_cluster. eapply Forall_impl; [exact Hall|].
    intros r ->. done. }
  split; [apply zip_with_add_cl_coords, length_replicate|].
  split; [done|]. split; [done|].
  by rewrite (location_alert_spec _ _ _ _ Hc), Hreg.
Qed.

(** X6: a history without a dense spot, of whatever size, gives an alert for
    every query point: when no point of the history has three points of the
    history (itself included) within the radius, every row is labelled
    noise, there is no region and [location_alert] returns [true]. *)
Theorem location_alert_no_dense_spot uid rows lon lat :
  execute uid = Return rows → rows ≠ [] → forallb finite_point rows = true →
  (∀ x, x ∈ rows → (neighbour_count default_eps rows x < 3)%nat) →
  ∃ data, clusters uid = Return data
          ∧ coords <$> data = rows
          ∧ Forall (λ r, cl r = NOISE) data
          ∧ regions data = []
          ∧ location_alert uid lon lat = Return true.
Proof.
  intros Hex Hne Hfin Hsparse. apply all_noise_alert; [done|].
  apply DBSCAN_fit_inner; [apply default_eps_positive|done..|].
  unfold dbscan_inner. apply sweep_no_core. intros i.
  apply not_true_is_false. intros Hcore.
  destruct (rows !! i) as [x|] eqn:Hx.
  - apply (is_core_point default_eps rows i x Hx) in Hcore.
    unfold core_point in Hcore.
    pose proof (Hsparse x (list_elem_of_lookup_2 _ _ _ Hx)). lia.
  - apply (is_core_length default_eps rows 3 i) in Hcore; [|lia].
    rewrite neighb_neighborhoods, Hx in Hcore. simpl in Hcore. lia.
Qed.

Lemma coords_add_cl x c : coords (add_cl x c) = x.
Proof. by destruct x. Qed.

Lemma elem_of_frame rows labels r :
  r ∈ zip_with add_cl rows labels →
  ∃ i, rows !! i = Some (coords r) ∧ labels !! i = Some (cl r).
Proof.
  intros [i Hi]%list_elem_of_lookup_1.
  apply lookup_zip_with_Some in Hi as (x & c & -> & Hx & Hc).
  exists i. by rewrite coords_add_cl.
Qed.

(** [clusters] on a history on which the radius query is reflexive and
    symmetric: the labels follow the clusters of the points. *)
Lemma clusters_by_cluster uid rows :
  execute uid = Return rows → rows ≠ [] → forallb finite_point rows = true →
  (∀ x, x ∈ rows → within default_eps x x = true) →
  (∀ x y, x ∈ rows → y ∈ rows →
          within default_eps x y = within default_eps y x) →
  ∃ labels, clusters uid = Return (zip_with add_cl rows labels)
            ∧ length labels = length rows ∧ Forall label_ok labels
            ∧ labels_by_cluster default_eps rows labels.
Proof.
  intros Hex Hne Hfin Hrefl Hsym.
  destruct (DBSCAN_fit_same_cluster default_eps rows default_eps_positive
              Hrefl Hsym Hne Hfin) as (labels & Hfit & Hlen & Hok & Hcl).
  exists labels. split; [by apply clusters_fit|done].
Qed.

Lemma same_cluster_refl eps X x : clustered eps X x → same_cluster eps X x x.
Proof. intros Hx. by repeat split. Qed.

(** X7: which rows [clusters] labels as noise.  When the radius query is
    reflexive and symmetric on the history, a row gets the noise label
    exactly when its point is within the radius of no core point of the
    history; in particular a row whose point is core gets a cluster
    number. *)
Theorem clusters_noise_iff uid rows :
  execute uid = Return rows → rows ≠ [] → forallb finite_point rows = true →
  (∀ x, x ∈ rows → within default_eps x x = true) →
  (∀ x y, x ∈ rows → y ∈ rows →
          within default_eps x y = within default_eps y x) →
  ∃ data, clusters uid = Return data
          ∧ (∀ r, r ∈ data →
               cl r = NOISE ↔ ¬ ∃ x, reaches default_eps rows x (coords r))
          ∧ (∀ r, r ∈ data → core_point default_eps rows (coords r) →
               0 ≤ cl r).
Proof.
  intros Hex Hne Hfin Hrefl Hsym.
  destruct (clusters_by_cluster uid rows Hex Hne Hfin Hrefl Hsym)
    as (labels & Hc & Hlen & Hok & Hcl).
  eexists. split; [exact Hc|].
  assert (∀ r, r ∈ zip_with add_cl rows labels →
               cl r ≠ NOISE ↔ clustered default_eps rows (coords r)) as Hiff.
  { intros r (i & Hx & Hl)%elem_of_frame.
    pose proof (Hcl i i _ _ Hx Hx) as Hii.
    rewrite (label_of_Some _ _ _ Hl) in Hii. split.
    - intros Hn. by apply Hii.
    - intros Hx'. by apply same_cluster_refl, Hii in Hx' as [_ ?]. }
  split.
  - intros r Hr. specialize (Hiff r Hr). unfold clustered in Hiff. split.
    + intros Hn Hx. by apply Hiff in Hx.
    + intros Hx. destruct (decide (cl r = NOISE)) as [|Hn]; [done|].
      by apply Hiff in Hn.
  - intros r Hr Hcore.
    assert (cl r ≠ NOISE) as Hn.
    { apply Hiff; [done|]. exists (coords r).
      destruct (elem_of_frame _ _ _ Hr) as (i & Hx & _).
      apply list_elem_of_lookup_2 in Hx. repeat split; auto. }
    destruct (elem_of_frame _ _ _ Hr) as (i & _ & Hl).
    apply list_elem_of_lookup_2 in Hl.
    rewrite Forall_forall in Hok. by destruct (Hok _ Hl).
Qed.

(** X8: which rows [clusters] puts in the same cluster.  When the radius
    query is reflexive and symmetric on the history, two rows carry the same
    cluster number exactly when their points are linked by a chain of
    points of the history in which each step goes from a core point to a
    point within the radius of it, or back. *)
Theorem clusters_same_label_iff uid rows :
  execute uid = Return rows → rows ≠ [] → forallb finite_point rows = true →
  (∀ x, x ∈ rows → within default_eps x x = true) →
  (∀ x y, x ∈ rows → y ∈ rows →
          within default_eps x y = within default_eps y x) →
  ∃ data, clusters uid = Return data
          ∧ ∀ r r', r ∈ data → r' ∈ data →
              (cl r = cl r' ∧ 0 ≤ cl r)
              ↔ ((∃ x, reaches default_eps rows x (coords r))
                 ∧ (∃ x, reaches default_eps rows x (coords r'))
                 ∧ rtsc (reaches default_eps rows) (coords r) (coords r')).
Proof.
  intros Hex Hne Hfin Hrefl Hsym.
  destruct (clusters_by_cluster uid rows Hex Hne Hfin Hrefl Hsym)
    as (labels & Hc & Hlen & Hok & Hcl).
  eexists. split; [exact Hc|].
  intros r r' (i & Hx & Hl)%elem_of_frame (j & Hy & Hl')%elem_of_frame.
  pose proof (Hcl i j _ _ Hx Hy) as Hij.
  rewrite (label_of_Some _ _ _ Hl), (label_of_Some _ _ _ Hl') in Hij.
  change (same_cluster default_eps rows (coords r) (coords r'))
    with ((∃ x, reaches default_eps rows x (coords r))
          ∧ (∃ x, reaches default_eps rows x (coords r'))
          ∧ rtsc (reaches default_eps rows) (coords r) (coords r')) in Hij.
  rewrite <- Hij. split.
  - intros [? ?]. split; [done|]. unfold NOISE. lia.
  - intros [? Hn]. split; [done|].
    apply list_elem_of_lookup_2 in Hl. rewrite Forall_forall in Hok.
    by destruct (Hok _ Hl).
Qed.

(** The cluster numbers in use after [label_num] clusters: none is missing. *)
Lemma dbscan_inner_numbers n core nbs :
  (∀ i v, v ∈ neighb nbs i → (v < n)%nat) →
  (∀ i, (length (neighb nbs i) ≤ n)%nat) →
  ∃ labels label_num,
    dbscan_inner core nbs n = Some labels
    ∧ length labels = n
    ∧ Forall (λ c, c = NOISE ∨ 0 ≤ c < label_num) labels
    ∧ ∀ c, 0 ≤ c < label_num → ∃ v, labels !! v = Some c.
Proof.
  intros Hb Hl. unfold dbscan_inner.
  set (Q := λ (num : Z) (labels : list Z) (_ : list nat),
         Forall (λ c, c = NOISE ∨ 0 ≤ c < num) labels
         ∧ ∀ c, 0 ≤ c < num → ∃ v, labels !! v = Some c).
  destruct (sweep_invariant n core nbs Hb Hl Q (dbscan_fuel n))
    with (todo := seq 0 n) (label_num := 0) (labels := replicate n NOISE)
    as (labels & num & Hsw & Hlen & _ & Hrange & Hused).
  - by intros.
  - intros k labels r todo Hk Hlen Hr [Hrange Hused] Hnoise _.
    set (P := λ (labels' : list Z) (pending : list nat),
           Forall (λ c, c = NOISE ∨ 0 ≤ c ≤ k) labels'
           ∧ (∀ v, label_of labels' v = label_of labels v
                   ∨ (label_of labels v = NOISE ∧ label_of labels' v = k))
           ∧ (label_of labels' r = k ∨ r ∈ pending)).
    destruct (expand_invariant n core nbs Hb Hl P k) with
      (fuel := dbscan_fuel n) (labels := labels) (stack := @nil nat) (i := r)
      as (labels' & Hex & Hlen' & Hrange' & Hframe & Hroot).
    + unfold NOISE. lia.
    + intros labels' stack i [Hlen' Hp] (Hr' & Hf & Hroot).
      apply Forall_cons in Hp as [Hi _].
      destruct (decide (label_of labels' i = NOISE)) as [Hn|Hn].
      * rewrite visit_unlabelled by done. cbn [fst snd].
        assert (∀ v, label_of (<[i:=k]> labels') v
                     = if decide (i = v) then k else label_of labels' v)
          as Hnew by (intros v; apply label_of_insert; lia).
        split; [apply Forall_insert; [done|right; lia]|]. split.
        -- intros v. rewrite Hnew. destruct (decide (i = v)) as [<-|]; [|done].
           right. split; [|done]. destruct (Hf i) as [<-|[? ?]]; [done|].
           unfold NOISE in *. lia.
        -- rewrite Hnew. destruct (decide (i = r)) as [<-|Hir]; [by left|].
           destruct Hroot as [?|Hin]; [by left|]. right.
           apply elem_of_cons in Hin as [->|Hin]; [done|].
           destruct (is_core core i); [|done].
           apply push_unlabelled_elem. by left.
      * rewrite visit_labelled by done. cbn [fst snd].
        split; [done|]. split; [done|].
        destruct Hroot as [?|Hin]; [by left|].
        apply elem_of_cons in Hin as [->|Hin]; [|by right].
        left. destruct (Hf i) as [Heq|[_ ?]]; [|done]. congruence.
    + split; [done|]. by apply Forall_singleton.
    + split; [|split].
      * eapply Forall_impl; [done|]. intros c [?|?]; [by left|right; lia].
      * by left.
      * right. by apply list_elem_of_singleton.
    + unfold turns_left, dbscan_fuel. pose proof (unlabelled_le labels).
      cbn [length]. nia.
    + exists labels'. split; [done|]. split; [done|]. split.
      * eapply Forall_impl; [done|]. intros c [?|?]; [by left|right; lia].
      * assert (∀ v c, 0 ≤ c → label_of labels' v = c → labels' !! v = Some c)
          as Hlk.
        { intros v c Hc0. unfold label_of.
          destruct (labels' !! v); simpl; [congruence|].
          unfold NOISE. lia. }
        intros c Hc. destruct (decide (c = k)) as [->|Hck].
        -- exists r. apply Hlk; [lia|].
           destruct Hroot as [?|Hin]; [done|]. by apply elem_of_nil in Hin.
        -- destruct (Hused c) as [v Hv]; [lia|]. exists v.
           apply Hlk; [lia|]. apply label_of_Some in Hv.
           destruct (Hframe v) as [->|[? _]]; [done|].
           unfold NOISE in *. lia.
  - apply Forall_forall. intros v Hv%elem_of_seq. lia.
  - done.
  - apply length_replicate.
  - split; [apply Forall_replicate; by left|]. intros c ?. lia.
  - by exists labels, num.
Qed.

Lemma clusters_numbers uid rows :
  execute uid = Return rows → rows ≠ [] → forallb finite_point rows = true →
  ∃ labels, clusters uid = Return (zip_with add_cl rows labels)
            ∧ length labels = length rows
            ∧ ∀ c c', c ∈ labels → 0 ≤ c' ≤ c → c' ∈ labels.
Proof.
  intros Hex Hne Hfin.
  destruct (dbscan_inner_numbers (length rows)
              (core_samples 3 (neighborhoods default_eps rows))
              (neighborhoods default_eps rows))
    as (labels & num & Hdb & Hlen & Hrange & Hused).
  { apply neighborhoods_bound. }
  { apply neighborhoods_length. }
  exists labels. split; [|split; [done|]].
  - apply clusters_fit; [done| |done].
    apply DBSCAN_fit_inner; [apply default_eps_positive|done..].
  - intros c c' Hc Hc'. rewrite Forall_forall in Hrange.
    destruct (Hrange c Hc) as [->|?]; [unfold NOISE in Hc'; lia|].
    destruct (Hused c') as [v Hv]; [lia|]. by eapply list_elem_of_lookup_2.
Qed.

(** X9: the cluster numbers that [clusters] hands out are [0], [1], ... with
    no gap: when a number appears in the column [cl], every smaller number
    [>= 0] appears too. *)
Theorem clusters_numbers_contiguous uid rows :
  execute uid = Return rows → rows ≠ [] → forallb finite_point rows = true →
  ∃ data, clusters uid = Return data
          ∧ ∀ c c', c ∈ cl <$> data → 0 ≤ c' ≤ c → c' ∈ cl <$> data.
Proof.
  intros Hex Hne Hfin.
  destruct (clusters_numbers uid rows Hex Hne Hfin) as (labels & Hc & Hlen & H).
  eexists. split; [exact Hc|]. by rewrite zip_with_add_cl_labels.
Qed.

Lemma length_filter_mono {A} (P Q : A → Prop)
    `{∀ x, Decision (P x)} `{∀ x, Decision (Q x)} (l : list A) :
  (∀ x, x ∈ l → P x → Q x) → (length (filter P l) ≤ length (filter Q l))%nat.
Proof using Type.
  induction l as [|x l IH]; [done|]. intros HPQ.
  assert (length (filter P l) ≤ length (filter Q l))%nat as IH'.
  { apply IH. intros y Hy. apply HPQ. by right. }
  destruct (decide (P x)) as [HP|HP].
  - rewrite (filter_cons_True P) by done.
    rewrite (filter_cons_True Q) by (apply HPQ; [by left|done]).
    cbn [length]. lia.
  - rewrite (filter_cons_False P) by done.
    destruct (decide (Q x)).
    + rewrite (filter_cons_True Q) by done. cbn [length]. lia.
    + by rewrite (filter_cons_False Q).
Qed.

Lemma length_filter_split {A} (P : A → Prop) `{∀ x, Decision (P x)}
    (l : list A) :
  length l = (length (filter P l) + length (filter (λ x, ¬ P x) l))%nat.
Proof using Type.
  rewrite <- length_app. apply Permutation_length.
  symmetry. apply filter_app_complement.
Qed.

Lemma length_filter_fmap {A B} (f : A → B) (P : B → Prop)
    `{∀ y, Decision (P y)} (l : list A) :
  length (filter P (f <$> l)) = length (filter (λ x, P (f x)) l).
Proof using Type.
  induction l as [|x l IH]; [done|]. rewrite fmap_cons.
  destruct (decide (P (f x))).
  - rewrite (filter_cons_True P), (filter_cons_True (λ x, P (f x))) by done.
    cbn [length]. by rewrite IH.
  - by rewrite (filter_cons_False P), (filter_cons_False (λ x, P (f x))).
Qed.

Lemma length_omap_le {A B} (f : A → option B) (l : list A) :
  (length (omap f l) ≤ length l)%nat.
Proof using Type.
  induction l as [|x l IH]; [done|]. cbn [omap list_omap].
  destruct (f x); cbn [length]; lia.
Qed.

(** Groups of at least [m] rows each take [m] rows of the frame each. *)
Lemma groups_bound (m : nat) (keys : list Z) (data : frame) :
  NoDup keys →
  (∀ k, k ∈ keys → (m ≤ length (group_of data k))%nat) →
  (m * length keys ≤ length data)%nat.
Proof using Type.
  intros Hnd. revert data.
  induction Hnd as [|k keys Hk Hnd IH]; intros data Hm; [cbn [length]; lia|].
  pose proof (Hm k ltac:(by left)) as Hgk.
  rewrite (length_filter_split (λ r, cl r = k) data).
  assert (m * length keys ≤ length (filter (λ r, ¬ cl r = k) data))%nat.
  { apply IH. intros k' Hk'.
    assert (k' ≠ k) as Hne by (by intros ->).
    pose proof (group_of_filter (λ c, ¬ c = k) data k' Hne) as Hg.
    cbn beta in Hg. rewrite Hg. apply Hm. by right. }
  unfold group_of in Hgk. cbn [length]. lia.
Qed.

(** X10: no cluster is smaller than the density threshold.  When the radius
    query is reflexive and symmetric on the history, every cluster number of
    the frame of [clusters] is carried by at least three rows, so the hull
    constructor is only ever given three rows or more, and a history of [n]
    check-ins gives at most [n / 3] regions. *)
Theorem clusters_at_least_three_rows uid rows :
  execute uid = Return rows → rows ≠ [] → forallb finite_point rows = true →
  (∀ x, x ∈ rows → within default_eps x x = true) →
  (∀ x y, x ∈ rows → y ∈ rows →
          within default_eps x y = within default_eps y x) →
  ∃ data, clusters uid = Return data
          ∧ (∀ k, 0 ≤ k → k ∈ cl <$> data →
               (3 ≤ length (as_matrix (group_of data k)))%nat)
          ∧ (3 * length (regions data) ≤ length rows)%nat.
Proof.
  intros Hex Hne Hfin Hrefl Hsym.
  destruct (clusters_by_cluster uid rows Hex Hne Hfin Hrefl Hsym)
    as (labels & Hc & Hlen & Hok & Hcl).
  set (data := zip_with add_cl rows labels) in *.
  assert (coords <$> data = rows) as Hco
    by by apply zip_with_add_cl_coords.
  assert (∀ k, 0 ≤ k → k ∈ cl <$> data → (3 ≤ length (group_of data k))%nat)
    as Hsize.
  { intros k Hk (r & -> & Hr)%list_elem_of_fmap.
    pose proof Hr as (i & Hx & Hl)%elem_of_frame.
    assert (same_cluster default_eps rows (coords r) (coords r))
      as [[c Hreach] _].
    { apply (Hcl i i _ _ Hx Hx). split; [done|].
      rewrite (label_of_Some _ _ _ Hl). unfold NOISE. lia. }
    pose proof Hreach as (Hcin & _ & Hcore & _).
    assert (clustered default_eps rows c) as Hcc.
    { exists c. repeat split; auto. }
    apply list_elem_of_lookup_1 in Hcin as [j Hj].
    assert (label_of labels j = cl r) as Hlj.
    { rewrite <- (label_of_Some _ _ _ Hl).
      apply (Hcl j i _ _ Hj Hx). split; [done|]. split; [by exists c|].
      by apply rtsc_lr. }
    etrans; [exact Hcore|]. unfold neighbour_count, group_of.
    rewrite <- Hco, length_filter_fmap.
    apply length_filter_mono. intros r' Hr' Hw. cbn beta in Hw.
    pose proof Hr' as (m & Hy & Hl')%elem_of_frame.
    assert (reaches default_eps rows c (coords r')) as Hcr.
    { repeat split; [by eapply list_elem_of_lookup_2..|done|done]. }
    rewrite <- (label_of_Some _ _ _ Hl'), <- Hlj.
    apply (Hcl m j _ _ Hy Hj). split; [by exists c|]. split; [done|].
    by apply rtsc_rl. }
  exists data. split; [done|]. split.
  - intros k Hk Hin. unfold as_matrix. rewrite length_fmap. by apply Hsize.
  - rewrite regions_spec.
    etrans; [|rewrite <- Hco, length_fmap; reflexivity].
    etrans; [apply Nat.mul_le_mono_l, length_omap_le|].
    apply groups_bound.
    + apply NoDup_filter, group_keys_NoDup.
    + intros k [Hk Hin]%list_elem_of_filter. apply Hsize; [done|].
      apply elem_of_group_keys in Hin as (r & Hr & <-).
      by apply list_elem_of_fmap_2.
Qed.

(** X11: a user who stays in one spot.  When the history has at least three
    check-ins and the radius query holds between any two of them, [clusters]
    puts every row in the cluster number [0]. *)
Theorem clusters_one_spot uid rows :
  execute uid = Return rows → (3 ≤ length rows)%nat →
  forallb finite_point rows = true →
  (∀ x y, x ∈ rows → y ∈ rows → within default_eps x y = true) →
  clusters uid = Return ((λ x, add_cl x 0) <$> rows).
Proof.
  intros Hex Hn Hfin Hnear.
  assert (rows ≠ []) as Hne by (intros ->; cbn [length] in Hn; lia).
  destruct (clusters_by_cluster uid rows Hex Hne Hfin)
    as (labels & Hc & Hlen & Hok & Hcl).
  { intros x Hx. by apply Hnear. }
  { intros x y Hx Hy. by rewrite !Hnear. }
  destruct (clusters_numbers uid rows Hex Hne Hfin)
    as (labels' & Hc' & Hlen' & Hgap).
  assert (labels' = labels) as ->.
  { rewrite Hc in Hc'. injection Hc' as Hz.
    rewrite <- (zip_with_add_cl_labels rows labels),
      <- (zip_with_add_cl_labels rows labels') by done.
    by rewrite Hz. }
  assert (∀ x, x ∈ rows → core_point default_eps rows x) as Hcore.
  { intros x Hx. unfold core_point, neighbour_count.
    etrans; [exact Hn|].
    etrans; [|apply (length_filter_mono (λ _, True)); intros y Hy _;
              by apply Hnear].
    clear. induction rows as [|y rows IH]; [done|].
    rewrite (filter_cons_True (λ _, True)) by done. cbn [length]. lia. }
  assert (∀ x y, x ∈ rows → y ∈ rows → same_cluster default_eps rows x y)
    as Hsame.
  { intros x y Hx Hy.
    assert (reaches default_eps rows x y) by (repeat split; auto).
    split; [exists x; repeat split; auto|]. split; [by exists x|].
    by apply rtsc_lr. }
  assert (∀ i, (i < length rows)%nat → labels !! i = Some 0) as Hzero.
  { intros i Hi.
    destruct (lookup_lt_is_Some_2 rows i Hi) as [x Hx].
    destruct (lookup_lt_is_Some_2 labels i ltac:(lia)) as [c Hl].
    pose proof (list_elem_of_lookup_2 _ _ _ Hx) as Hxin.
    pose proof (list_elem_of_lookup_2 _ _ _ Hl) as Hlin.
    assert (0 ≤ c) as Hc0.
    { rewrite Forall_forall in Hok. destruct (Hok c Hlin) as [->|?]; [|done].
      destruct (proj2 (Hcl i i x x Hx Hx) (Hsame x x Hxin Hxin)) as [_ Hnn].
      by rewrite (label_of_Some _ _ _ Hl) in Hnn. }
    assert (0 ∈ labels) as [j Hj]%list_elem_of_lookup_1
      by (apply (Hgap c); [done|lia]).
    destruct (lookup_lt_is_Some_2 rows j) as [y Hy].
    { rewrite <- Hlen. by eapply lookup_lt_Some. }
    destruct (proj2 (Hcl i j x y Hx Hy)) as [Heq _].
    { apply Hsame; [done|by eapply list_elem_of_lookup_2]. }
    rewrite (label_of_Some _ _ _ Hl), (label_of_Some _ _ _ Hj) in Heq.
    by rewrite Hl, Heq. }
  rewrite Hc. f_equal. apply list_eq. intros i.
  rewrite lookup_zip_with, list_lookup_fmap.
  destruct (rows !! i) as [x|] eqn:Hx; [|done]. cbn.
  by rewrite Hzero by by eapply lookup_lt_Some.
Qed.

(** [clusters] on a history and on a reordering of it. *)
Lemma clusters_by_cluster_Permutation uid uid' rows rows' :
  execute uid = Return rows → execute uid' = Return rows' → rows ≡ₚ rows' →
  rows ≠ [] → forallb finite_point rows = true →
  (∀ x, x ∈ rows → within default_eps x x = true) →
  (∀ x y, x ∈ rows → y ∈ rows →
          within default_eps x y = within default_eps y x) →
  ∃ labels labels',
    clusters uid = Return (zip_with add_cl rows labels)
    ∧ clusters uid' = Return (zip_with add_cl rows' labels')
    ∧ length labels = length rows ∧ length labels' = length rows'
    ∧ Forall label_ok labels ∧ Forall label_ok labels'
    ∧ labels_by_cluster default_eps rows labels
    ∧ labels_by_cluster default_eps rows' labels'.
Proof.
  intros Hex Hex' Hperm Hne Hfin Hrefl Hsym.
  destruct (clusters_by_cluster uid rows Hex Hne Hfin Hrefl Hsym)
    as (labels & Hc & Hlen & Hok & Hcl).
  destruct (clusters_by_cluster uid' rows' Hex')
    as (labels' & Hc' & Hlen' & Hok' & Hcl').
  { intros ->. by apply Permutation_nil_r in Hperm. }
  { by rewrite <- (forallb_Permutation _ rows rows'). }
  { intros x Hx. rewrite <- Hperm in Hx. by apply Hrefl. }
  { intros x y Hx Hy. rewrite <- Hperm in Hx, Hy. by apply Hsym. }
  by exists labels, labels'.
Qed.

(** X13: the clusters do not depend on the order of the history.  When the
    radius query is reflexive and symmetric on the history, [clusters] on a
    reordering of the history puts two check-ins in one cluster exactly when
    it does so on the history itself, the cluster numbers aside; and the
    matrix of points that [regions] takes from each cluster of the one frame
    is, up to the order of its rows, the matrix it takes from a cluster of
    the other. *)
Theorem clusters_history_order uid uid' rows rows' :
  execute uid = Return rows → execute uid' = Return rows' → rows ≡ₚ rows' →
  rows ≠ [] → forallb finite_point rows = true →
  (∀ x, x ∈ rows → within default_eps x x = true) →
  (∀ x y, x ∈ rows → y ∈ rows →
          within default_eps x y = within default_eps y x) →
  ∃ data data',
    clusters uid = Return data ∧ clusters uid' = Return data'
    ∧ (∀ r s r' s', r ∈ data → s ∈ data → r' ∈ data' → s' ∈ data' →
         coords r = coords r' → coords s = coords s' →
         (cl r = cl s ∧ 0 ≤ cl r) ↔ (cl r' = cl s' ∧ 0 ≤ cl r'))
    ∧ (∀ k, 0 ≤ k → k ∈ cl <$> data →
         ∃ k', 0 ≤ k' ∧ k' ∈ cl <$> data'
               ∧ as_matrix (group_of data k)
                 ≡ₚ as_matrix (group_of data' k'))
    ∧ (∀ k', 0 ≤ k' → k' ∈ cl <$> data' →
         ∃ k, 0 ≤ k ∧ k ∈ cl <$> data
              ∧ as_matrix (group_of data k)
                ≡ₚ as_matrix (group_of data' k')).
Proof.
  intros Hex Hex' Hperm Hne Hfin Hrefl Hsym.
  destruct (clusters_by_cluster_Permutation uid uid' rows rows')
    as (labels & labels' & Hc & Hc' & Hlen & Hlen' & Hok & Hok' & Hcl & Hcl');
    [done..|].
  assert (∀ (X : list point) (L : list Z) k,
            k ∈ cl <$> zip_with add_cl X L
            ↔ k ∈ group_keys (zip_with add_cl X L)) as Hkeys.
  { intros X L k. rewrite elem_of_group_keys, list_elem_of_fmap. split.
    - intros (r & -> & Hr). by exists r.
    - intros (r & Hr & <-). by exists r. }
  assert (∀ (X : list point) (L : list Z) r s,
            Forall label_ok L → labels_by_cluster default_eps X L →
            r ∈ zip_with add_cl X L → s ∈ zip_with add_cl X L →
            (cl r = cl s ∧ 0 ≤ cl r)
            ↔ same_cluster default_eps X (coords r) (coords s)) as Hsame.
  { intros X L r s HokL HclL (i & Hx & Hl)%elem_of_frame
      (j & Hy & Hl')%elem_of_frame.
    pose proof (HclL i j _ _ Hx Hy) as Hij.
    rewrite (label_of_Some _ _ _ Hl), (label_of_Some _ _ _ Hl') in Hij.
    rewrite <- Hij. split.
    - intros [? ?]. split; [done|]. unfold NOISE. lia.
    - intros [? Hn]. split; [done|].
      apply list_elem_of_lookup_2 in Hl. rewrite Forall_forall in HokL.
      by destruct (HokL _ Hl). }
  exists (zip_with add_cl rows labels), (zip_with add_cl rows' labels').
  split; [done|]. split; [done|]. split; [|split].
  - intros r s r' s' Hr Hs Hr' Hs' Hrr' Hss'.
    rewrite (Hsame rows labels r s), (Hsame rows' labels' r' s') by done.
    rewrite <- Hrr', <- Hss'. split.
    + by apply same_cluster_Permutation.
    + by apply same_cluster_Permutation.
  - intros k Hk0 Hk. apply Hkeys in Hk.
    destruct (cluster_matrix_transfer default_eps rows rows' labels labels' k)
      as (k' & Hk'0 & Hk' & Hp); [done..|].
    exists k'. by rewrite Hkeys.
  - intros k' Hk'0 Hk'. apply Hkeys in Hk'.
    destruct (cluster_matrix_transfer default_eps rows' rows labels' labels k')
      as (k & Hk0 & Hk & Hp); [done..|].
    exists k. by rewrite Hkeys.
Qed.

(** X14: the verdict for a reordered history.  When the radius query is
    reflexive and symmetric on the history, and the answer of the hull
    constructor and of the triangulation for the query point on each cluster
    of the history is the same for the rows of the cluster in another order,
    [location_alert] returns the same verdict for the history and for any
    reordering of it. *)
Theorem location_alert_history_order uid uid' rows rows' data lon lat :
  execute uid = Return rows → execute uid' = Return rows' → rows ≡ₚ rows' →
  clusters uid = Return data →
  (∀ x, x ∈ rows → within default_eps x x = true) →
  (∀ x y, x ∈ rows → y ∈ rows →
          within default_eps x y = within default_eps y x) →
  (∀ k pts', 0 ≤ k → as_matrix (group_of data k) ≡ₚ pts' →
     hull_answer (lon, lat) (as_matrix (group_of data k))
     = hull_answer (lon, lat) pts') →
  ∃ verdict, location_alert uid lon lat = Return verdict
             ∧ location_alert uid' lon lat = Return verdict.
Proof.
  intros Hex Hex' Hperm Hdata Hrefl Hsym Hgeo.
  assert (rows ≠ []) as Hne.
  { intros ->. by rewrite (clusters_empty uid Hex) in Hdata. }
  assert (forallb finite_point rows = true) as Hfin.
  { destruct (forallb finite_point rows) eqn:Hfin; [done|].
    by rewrite (clusters_not_finite uid rows Hex Hfin) in Hdata. }
  destruct (clusters_by_cluster_Permutation uid uid' rows rows')
    as (labels & labels' & Hc & Hc' & Hlen & Hlen' & Hok & Hok' & Hcl & Hcl');
    [done..|].
  rewrite Hc in Hdata. injection Hdata as <-.
  rewrite (location_alert_spec _ _ _ _ Hc), (location_alert_spec _ _ _ _ Hc').
  eexists. split; [done|]. do 2 f_equal. symmetry.
  by eapply regions_answer_Permutation.
Qed.

End Clusters.

Section Api.

Context {lib : Collaborators}.

Variable float_of_str : string → result float.

(** X12: the answers of the endpoint.  The body is the text [true] or the
    text [false], and [false] exactly when both coordinates are read as
    numbers and [location_alert] gives no alert for them; the request fails
    exactly when the longitude is not read as a number, or else the latitude
    is not, or else [clusters] fails for the user, with the error of that
    step. *)
Theorem alert_api_answers uid lon lat :
  (∀ s, alert_api float_of_str uid lon lat = Return s
        → s = "true" ∨ s = "false")
  ∧ (alert_api float_of_str uid lon lat = Return "false"
     ↔ ∃ x y, float_of_str lon = Return x ∧ float_of_str lat = Return y
              ∧ location_alert uid x y = Return false)
  ∧ (∀ e, alert_api float_of_str uid lon lat = Raise e
          ↔ float_of_str lon = Raise e
            ∨ (∃ x, float_of_str lon = Return x ∧ float_of_str lat = Raise e)
            ∨ (∃ x y, float_of_str lon = Return x
                      ∧ float_of_str lat = Return y
                      ∧ clusters uid = Raise e)).
Proof.
  unfold alert_api.
  destruct (float_of_str lon) as [x|e1]; cbn [bind].
  - destruct (float_of_str lat) as [y|e2]; cbn [bind].
    + destruct (clusters uid) as [data|e3] eqn:Hc.
      * rewrite (location_alert_spec _ _ _ _ Hc). cbn [bind].
        split; [|split].
        -- intros s [= <-]. destruct (negb _); auto.
        -- split.
           ++ intros [= Hs]. exists x, y.
              rewrite (location_alert_spec _ _ _ _ Hc).
              by destruct (negb _).
           ++ intros (x' & y' & [= <-] & [= <-] & Hl).
              rewrite (location_alert_spec _ _ _ _ Hc) in Hl.
              by injection Hl as ->.
        -- intros e. split; [done|].
           intros [?|[(? & _ & ?)|(? & ? & _ & _ & ?)]]; done.
      * assert (∀ x y, location_alert uid x y = Raise e3) as Hl
          by (intros; unfold location_alert; by rewrite Hc).
        rewrite Hl. cbn [bind]. split; [done|]. split.
        -- split; [done|]. intros (x' & y' & _ & _ & Hl').
           by rewrite Hl in Hl'.
        -- intros e. split.
           ++ intros [= <-]. right. right. by exists x, y.
           ++ intros [?|[(? & _ & ?)|(? & ? & _ & _ & [= <-])]]; done.
    + split; [done|]. split.
      * split; [done|]. by intros (? & ? & _ & ? & _).
      * intros e. split.
        -- intros [= <-]. right. left. by exists x.
        -- intros [?|[(? & _ & [= <-])|(? & ? & _ & ? & _)]]; done.
  - split; [done|]. split.
    + split; [done|]. by intros (? & ? & ? & _).
    + intros e. split.
      * intros [= <-]. by left.
      * intros [[= <-]|[(? & ? & _)|(? & ? & ? & _)]]; done.
Qed.

End Api.

(** ** Runs of the rest of the service on the stand-ins *)

(** Each point of a history that is written out satisfies a closed fact. *)
Ltac each_point H :=
  repeat (apply elem_of_cons in H as [->|H]; [vm_compute; try reflexivity|]);
  try (by apply elem_of_nil in H).

Lemma location_alert_familiar_witness :
  clusters_standin 22 = Return data_22
  ∧ (location_alert_standin 22 0.00003 0.00003 = Return false
     ↔ ∃ k vertices hull_vertices t s,
         0 ≤ k ∧ k ∈ cl <$> data_22
         ∧ Standin.ConvexHull (as_matrix (group_of data_22 k)) = Return vertices
         ∧ mapM (λ i, as_matrix (group_of data_22 k) !! i) vertices
           = Some hull_vertices
         ∧ Standin.Delaunay hull_vertices = Return t
         ∧ Standin.find_simplex t (0.00003, 0.00003)%float = Return s
         ∧ 0 ≤ s).
Proof.
  split; [vm_compute; reflexivity|].
  apply (location_alert_familiar
           (lib := Standin.lib) 22 0.00003%float 0.00003%float data_22).
  vm_compute; reflexivity.
Defined.

Lemma alert_loop_order_witness :
  ∃ res,
    alert_loop (lib := Standin.lib) (0.5, 0.5)%float
      [NdArray [(0, 0); (1, 0); (1, 1); (0, 1)]%float;
       NdArray [(5, 5); (6, 5); (6, 6); (5, 6)]%float] [0; 1]%nat false
    = Return res
    ∧ alert_loop (lib := Standin.lib) (0.5, 0.5)%float
        [NdArray [(5, 5); (6, 5); (6, 6); (5, 6)]%float;
         NdArray [(0, 0); (1, 0); (1, 1); (0, 1)]%float] [0; 1]%nat false
      = Return res
    ∧ (res = true
       ↔ ∃ h, h ∈ [NdArray [(0, 0); (1, 0); (1, 1); (0, 1)]%float;
                    NdArray [(5, 5); (6, 5); (6, 6); (5, 6)]%float]
              ∧ in_hull_standin (0.5, 0.5)%float h = Return true).
Proof.
  apply (alert_loop_order (lib := Standin.lib) (0.5, 0.5)%float
           [NdArray [(0, 0); (1, 0); (1, 1); (0, 1)]%float;
            NdArray [(5, 5); (6, 5); (6, 6); (5, 6)]%float]
           [NdArray [(5, 5); (6, 5); (6, 6); (5, 6)]%float;
            NdArray [(0, 0); (1, 0); (1, 1); (0, 1)]%float]).
  - repeat constructor; eexists; reflexivity.
  - apply perm_swap.
Defined.

Lemma location_alert_no_dense_spot_witness :
  ∃ data, clusters (lib := lib_traveller) 7 = Return data
          ∧ coords <$> data = history_traveller
          ∧ Forall (λ r, cl r = NOISE) data
          ∧ regions (lib := lib_traveller) data = []
          ∧ location_alert (lib := lib_traveller) 7 2 2 = Return true.
Proof.
  apply (location_alert_no_dense_spot (lib := lib_traveller) 7
           history_traveller 2%float 2%float).
  - reflexivity.
  - discriminate.
  - vm_compute; reflexivity.
  - intros x Hx. unfold history_traveller in Hx. each_point Hx; lia.
Defined.

Lemma clusters_noise_iff_witness :
  ∃ data, clusters_standin 30 = Return data
          ∧ (∀ r, r ∈ data →
               cl r = NOISE
               ↔ ¬ ∃ x, reaches (lib := Standin.lib) default_eps
                          Standin.history_30 x (coords r))
          ∧ (∀ r, r ∈ data →
               core_point (lib := Standin.lib) default_eps Standin.history_30
                 (coords r) →
               0 ≤ cl r).
Proof.
  apply (clusters_noise_iff (lib := Standin.lib) 30 Standin.history_30).
  - vm_compute; reflexivity.
  - discriminate.
  - vm_compute; reflexivity.
  - intros x Hx. unfold Standin.history_30 in Hx. each_point Hx.
  - intros x y Hx Hy. unfold Standin.history_30 in Hx, Hy.
    repeat (apply elem_of_cons in Hx as [->|Hx]; [each_point Hy|]).
    by apply elem_of_nil in Hx.
Defined.

Lemma clusters_same_label_iff_witness :
  ∃ data, clusters_standin 30 = Return data
          ∧ ∀ r r', r ∈ data → r' ∈ data →
              (cl r = cl r' ∧ 0 ≤ cl r)
              ↔ ((∃ x, reaches (lib := Standin.lib) default_eps
                         Standin.history_30 x (coords r))
                 ∧ (∃ x, reaches (lib := Standin.lib) default_eps
                           Standin.history_30 x (coords r'))
                 ∧ rtsc (reaches (lib := Standin.lib) default_eps
                           Standin.history_30) (coords r) (coords r')).
Proof.
  apply (clusters_same_label_iff (lib := Standin.lib) 30 Standin.history_30).
  - vm_compute; reflexivity.
  - discriminate.
  - vm_compute; reflexivity.
  - intros x Hx. unfold Standin.history_30 in Hx. each_point Hx.
  - intros x y Hx Hy. unfold Standin.history_30 in Hx, Hy.
    repeat (apply elem_of_cons in Hx as [->|Hx]; [each_point Hy|]).
    by apply elem_of_nil in Hx.
Defined.

Lemma clusters_numbers_contiguous_witness :
  ∃ data, clusters_standin 30 = Return data
          ∧ ∀ c c', c ∈ cl <$> data → 0 ≤ c' ≤ c → c' ∈ cl <$> data.
Proof.
  apply (clusters_numbers_contiguous (lib := Standin.lib) 30
           Standin.history_30).
  - vm_compute; reflexivity.
  - discriminate.
  - vm_compute; reflexivity.
Defined.

Lemma clusters_at_least_three_rows_witness :
  ∃ data, clusters_standin 30 = Return data
          ∧ (∀ k, 0 ≤ k → k ∈ cl <$> data →
               (3 ≤ length (as_matrix (group_of data k)))%nat)
          ∧ (3 * length (regions_standin data)
             ≤ length Standin.history_30)%nat.
Proof.
  apply (clusters_at_least_three_rows (lib := Standin.lib) 30
           Standin.history_30).
  - vm_compute; reflexivity.
  - discriminate.
  - vm_compute; reflexivity.
  - intros x Hx. unfold Standin.history_30 in Hx. each_point Hx.
  - intros x y Hx Hy. unfold Standin.history_30 in Hx, Hy.
    repeat (apply elem_of_cons in Hx as [->|Hx]; [each_point Hy|]).
    by apply elem_of_nil in Hx.
Defined.

Lemma clusters_one_spot_witness :
  clusters_standin 22
  = Return ((λ x, add_cl x 0) <$> [(0, 0); (0, 0.0001); (0.0001, 0)]%float).
Proof.
  apply (clusters_one_spot (lib := Standin.lib) 22
           [(0, 0); (0, 0.0001); (0.0001, 0)]%float).
  - vm_compute; reflexivity.
  - simpl; lia.
  - vm_compute; reflexivity.
  - intros x y Hx Hy.
    repeat (apply elem_of_cons in Hx as [->|Hx]; [each_point Hy|]).
    by apply elem_of_nil in Hx.
Defined.

Lemma clusters_history_order_witness :
  ∃ data data',
    clusters_standin 30 = Return data ∧ clusters_standin 31 = Return data'
    ∧ (∀ r s r' s', r ∈ data → s ∈ data → r' ∈ data' → s' ∈ data' →
         coords r = coords r' → coords s = coords s' →
         (cl r = cl s ∧ 0 ≤ cl r) ↔ (cl r' = cl s' ∧ 0 ≤ cl r'))
    ∧ (∀ k, 0 ≤ k → k ∈ cl <$> data →
         ∃ k', 0 ≤ k' ∧ k' ∈ cl <$> data'
               ∧ as_matrix (group_of data k)
                 ≡ₚ as_matrix (group_of data' k'))
    ∧ (∀ k', 0 ≤ k' → k' ∈ cl <$> data' →
         ∃ k, 0 ≤ k ∧ k ∈ cl <$> data
              ∧ as_matrix (group_of data k)
                ≡ₚ as_matrix (group_of data' k')).
Proof.
  apply (clusters_history_order (lib := Standin.lib) 30 31
           Standin.history_30 (rev Standin.history_30)).
  - vm_compute; reflexivity.
  - vm_compute; reflexivity.
  - apply Permutation_rev.
  - discriminate.
  - vm_compute; reflexivity.
  - intros x Hx. unfold Standin.history_30 in Hx. each_point Hx.
  - intros x y Hx Hy. unfold Standin.history_30 in Hx, Hy.
    repeat (apply elem_of_cons in Hx as [->|Hx]; [each_point Hy|]).
    by apply elem_of_nil in Hx.
Defined.

Lemma location_alert_history_order_witness :
  ∃ verdict,
    location_alert_standin 44 0.00003 0.00003 = Return verdict
    ∧ location_alert_standin 45 0.00003 0.00003 = Return verdict.
Proof.
  apply (location_alert_history_order (lib := Standin.lib) 44 45
           Standin.history_44 (rev Standin.history_44) data_44).
  - vm_compute; reflexivity.
  - vm_compute; reflexivity.
  - apply Permutation_rev.
  - vm_compute; reflexivity.
  - intros x Hx. unfold Standin.history_44 in Hx. each_point Hx.
  - intros x y Hx Hy. unfold Standin.history_44 in Hx, Hy.
    repeat (apply elem_of_cons in Hx as [->|Hx]; [each_point Hy|]).
    by apply elem_of_nil in Hx.
  - intros k pts' Hk Hperm. destruct (decide (k = 0)) as [->|Hk0].
    + change (as_matrix (group_of data_44 0)) with Standin.history_44
        in Hperm |- *.
      apply permutations_Permutation in Hperm.
      set (ps := permutations Standin.history_44) in Hperm.
      vm_compute in ps. subst ps. each_point Hperm.
    + assert (as_matrix (group_of data_44 k) = []) as Hnil.
      { unfold data_44, group_of.
        by rewrite !filter_cons_False, filter_nil by (simpl; lia). }
      rewrite Hnil in Hperm |- *. by apply Permutation_nil_l in Hperm as <-.
Defined.

(** The endpoint on the stand-ins: a familiar place, and a text that is not
    a number. *)
Example alert_api_44 :
  alert_api (lib := Standin.lib) float_of_str_standin 44 "0.00003" "0.00003"
  = Return "false"
  ∧ alert_api (lib := Standin.lib) float_of_str_standin 44 "0.00003" "north"
    = Raise ValueError.
Proof. split; vm_compute; reflexivity. Qed.
